(** * pokecache: the time-bounded response cache of pokedexcli

    A shallow embedding of package [pokecache] (type [Cache] with [NewCache],
    [Add], [Get], [reapLoop], [reapExpired], [Stop], [GetInterval],
    [GetCacheMap] and [Len]) and the properties its specification states.

    Go maps and channels are reference objects: the embedding keeps them in a
    store addressed by locations, so that the map handed out by [GetCacheMap]
    and the map owned by the cache are two distinct objects.  The [RWMutex]
    makes every method body one atomic step on that store; a method is
    therefore a function from the store to an outcome. *)

From stdpp Require Import gmap strings list fin_maps.
From Stdlib Require Import ZArith Lia.

Local Open Scope Z_scope.

(** ** Time *)

(** [time.Duration] is an [int64] count of nanoseconds. *)
Definition Duration := Z.
Definition maxDuration : Duration := 9223372036854775807.
Definition minDuration : Duration := -9223372036854775808.

Definition Nanosecond : Duration := 1.
Definition Millisecond : Duration := 1000000.
Definition Second : Duration := 1000000000.

(** A [time.Time] obtained from [time.Now] carries a monotonic clock reading;
    it is kept as a count of nanoseconds. *)
Definition Time := Z.

(** [t.Sub(u)]: the duration [t-u], and the largest (smallest) duration when
    [t-u] does not fit. *)
Definition Sub (t u : Time) : Duration :=
  let d := t - u in
  if maxDuration <? d then maxDuration
  else if d <? minDuration then minDuration
  else d.

(** ** Data *)

(** A Go [[]byte]: [None] is the nil slice, [Some l] a non-nil slice holding
    [l] ([Some []] is [[]byte{}]). The package never writes into the bytes
    of a slice, so a slice is kept as the bytes it holds. *)
Definition bytes := option (list Byte.byte).

Definition len_bytes (b : bytes) : nat :=
  match b with
  | None => 0%nat
  | Some l => length l
  end.

(** The bytes a slice holds; a nil slice holds none. *)
Definition contents (b : bytes) : list Byte.byte :=
  match b with
  | None => []
  | Some l => l
  end.

Record CacheEntry := mkCacheEntry {
  CreatedAt : Time;
  Val : bytes
}.

Definition loc := nat.

(** [type Cache struct]: [cache] and [stopChan] are references into the
    store. The [mu] field has no state of its own between two methods. *)
Record Cache := mkCache {
  cache : loc;
  interval : Duration;
  stopChan : loc
}.

(** A [chan struct{}] on which nothing is ever sent is open or closed. *)
Inductive chan_state := ChanOpen | ChanClosed.

(** The store: map objects, channel objects and the clock read by
    [time.Now]. *)
Record World := mkWorld {
  maps : gmap loc (gmap string CacheEntry);
  chans : gmap loc chan_state;
  clock : Time
}.

Definition set_maps (f : gmap loc (gmap string CacheEntry) → gmap loc (gmap string CacheEntry))
    (w : World) : World :=
  {| maps := f (maps w); chans := chans w; clock := clock w |}.

Definition set_chans (f : gmap loc chan_state → gmap loc chan_state) (w : World) : World :=
  {| maps := maps w; chans := f (chans w); clock := clock w |}.

Definition set_clock (f : Time → Time) (w : World) : World :=
  {| maps := maps w; chans := chans w; clock := f (clock w) |}.

(** ** Outcomes *)

(** A call returns a value and a store, or panics with the runtime's
    message. *)
Inductive result (A : Type) :=
| Ok (a : A) (w : World)
| Panic (msg : string).
Arguments Ok {A} a w.
Arguments Panic {A} msg.

Definition M (A : Type) := World → result A.

Definition ret {A} (a : A) : M A := λ w, Ok a w.

Definition bind {A B} (k : A → M B) (m : M A) : M B :=
  λ w, match m w with
       | Ok a w' => k a w'
       | Panic msg => Panic msg
       end.

(** [x ← m; k] and [m;; k] are stdpp's notations for [bind]. *)
#[export] Instance M_ret : MRet M := @ret.
#[export] Instance M_bind : MBind M := @bind.

Definition panic {A} (msg : string) : M A := λ _, Panic msg.

(** [time.Now()] *)
Definition now : M Time := λ w, Ok (clock w) w.

(** [time.Sleep(d)]: returns at once when [d] is not positive. *)
Definition Sleep (d : Duration) : M unit :=
  λ w, Ok tt (set_clock (λ t, t + Z.max 0 d) w).

(** *** Map objects *)

Definition nil_deref : string := "invalid memory address or nil pointer dereference".

(** [make(map[string]CacheEntry)]. *)
Definition make_map : M loc :=
  λ w, let r := fresh (dom (maps w)) in Ok r (set_maps <[r := ∅]> w).

(** The map object behind a reference. A reference that was never allocated
    is no map of the program; it is treated as a nil receiver. *)
Definition read_map (r : loc) : M (gmap string CacheEntry) :=
  λ w, match maps w !! r with
       | Some m => Ok m w
       | None => Panic nil_deref
       end.

Definition write_map (r : loc) (m : gmap string CacheEntry) : M unit :=
  λ w, match maps w !! r with
       | Some _ => Ok tt (set_maps <[r := m]> w)
       | None => Panic nil_deref
       end.

(** [m[key] = e] *)
Definition map_assign (r : loc) (key : string) (e : CacheEntry) : M unit :=
  m ← read_map r; write_map r (<[key := e]> m).

(** [delete(m, key)] *)
Definition map_delete (r : loc) (key : string) : M unit :=
  m ← read_map r; write_map r (delete key m).

(** [e, ok := m[key]] *)
Definition map_index (r : loc) (key : string) : M (option CacheEntry) :=
  m ← read_map r; ret (m !! key).

(** *** Channel objects *)

(** [make(chan struct{})]. *)
Definition make_chan : M loc :=
  λ w, let r := fresh (dom (chans w)) in Ok r (set_chans <[r := ChanOpen]> w).

(** [close(ch)]: closing a closed channel is a run-time panic, and so is
    closing a nil channel. *)
Definition close (r : loc) : M unit :=
  λ w, match chans w !! r with
       | Some ChanOpen => Ok tt (set_chans <[r := ChanClosed]> w)
       | Some ChanClosed => Panic "close of closed channel"
       | None => Panic "close of nil channel"
       end.

(** ** The cache *)

(** [NewCache]: the goroutine it starts is [reapLoop] below. *)
Definition NewCache (interval : Duration) : M Cache :=
  m ← make_map;
  ch ← make_chan;
  ret {| cache := m; interval := interval; stopChan := ch |}.

Definition Add (c : Cache) (key : string) (val : bytes) : M unit :=
  t ← now;
  let ce := {| CreatedAt := t; Val := val |} in
  map_assign (cache c) key ce.

Definition Get (c : Cache) (key : string) : M (bytes * bool) :=
  r ← map_index (cache c) key;
  match r with
  | None => ret (Some [], false)
  | Some entry =>
      match Val entry with
      | None => ret (Some [], true)
      | Some _ => ret (Val entry, true)
      end
  end.

(** One iteration of the loop of [reapExpired] at entry [(key, entry)]. *)
Definition reap_one (c : Cache) (t : Time) (ke : string * CacheEntry) : M unit :=
  if interval c <? Sub t (CreatedAt ke.2) then map_delete (cache c) ke.1 else ret tt.

(** [for key, entry := range ...] over the entries [l], in that order. *)
Fixpoint range_reap (c : Cache) (t : Time) (l : list (string * CacheEntry)) : M unit :=
  match l with
  | [] => ret tt
  | ke :: l' => reap_one c t ke ;; range_reap c t l'
  end.

(** [reapExpired]. The loop only ever deletes the key it is at, so the range
    visits each entry of the map as it was on entry exactly once; Go leaves
    the order open, [map_to_list] is one order. *)
Definition reapExpired (c : Cache) : M unit :=
  t ← now;
  m ← read_map (cache c);
  range_reap c t (map_to_list m).

Definition Stop (c : Cache) : M unit := close (stopChan c).


(** One iteration of the copying loop of [GetCacheMap]. *)
Fixpoint range_copy (dst : loc) (l : list (string * CacheEntry)) : M unit :=
  match l with
  | [] => ret tt
  | kv :: l' => map_assign dst kv.1 kv.2 ;; range_copy dst l'
  end.

Definition GetCacheMap (c : Cache) : M loc :=
  m ← read_map (cache c);
  cacheCopy ← make_map;
  range_copy cacheCopy (map_to_list m) ;;
  ret cacheCopy.

Definition Len (c : Cache) : M Z :=
  m ← read_map (cache c); ret (Z.of_nat (size m)).

(** *** The reaper goroutine *)

(** [time.NewTicker(d)] panics when [d] is not positive. *)
Definition NewTicker (d : Duration) : M unit :=
  if d <=? 0 then panic "non-positive interval for NewTicker" else ret tt.

(** Where the goroutine running [reapLoop] is: blocked in its [select], or
    returned. *)
Inductive loop_state := AtSelect | Returned.

(** The two cases of the [select]. *)
Inductive select_case := CaseStop | CaseTick.

(** [<-c.stopChan] can proceed only once the channel is closed: nothing is
    ever sent on it. *)
Definition stop_ready (c : Cache) (w : World) : bool :=
  match chans w !! stopChan c with
  | Some ChanClosed => true
  | _ => false
  end.

(** Entry of [reapLoop], up to its first [select]. *)
Definition reapLoop_enter (c : Cache) : M loop_state :=
  NewTicker (interval c);; ret AtSelect.

(** One pass through the [select] of [reapLoop] taking the case [case]; when
    the ticker has a tick to deliver is left to the caller of this function.
    [None]: the case cannot be taken (the goroutine has returned, or the
    stop channel is still open). *)
Definition reapLoop_iter (c : Cache) (case : select_case) (st : loop_state)
    (w : World) : option (result loop_state) :=
  match st, case with
  | Returned, _ => None
  | AtSelect, CaseStop => if stop_ready c w then Some (Ok Returned w) else None
  | AtSelect, CaseTick => Some ((reapExpired c;; ret AtSelect) w)
  end.

(** ** Vocabulary of the specification *)

(** The age of an entry at time [t]. *)
Definition age (t : Time) (e : CacheEntry) : Duration := Sub t (CreatedAt e).

(** A value as [Get] hands it out: the nil slice becomes the empty one. *)
Definition normalize (v : bytes) : bytes :=
  match v with
  | None => Some []
  | Some l => Some l
  end.

(** The entries of [m] a sweep at time [t] keeps. *)
Definition survivors (c : Cache) (t : Time) (m : gmap string CacheEntry) :
    gmap string CacheEntry :=
  filter (λ ke, age t ke.2 ≤ interval c) m.

(** The value of a call that returned. *)
Definition value_of {A} (r : result A) : option A :=
  match r with
  | Ok a _ => Some a
  | Panic _ => None
  end.

(** Apply [g] to the store of an outcome. *)
Definition on_world {A} (g : World → World) (r : result A) : result A :=
  match r with
  | Ok a w => Ok a (g w)
  | Panic msg => Panic msg
  end.

(** What a caller may do to a map it holds a reference to. *)
Inductive mutation :=
| Assign (key : string) (e : CacheEntry)
| Delete (key : string).

Definition mutate (r : loc) (mu : mutation) : M unit :=
  match mu with
  | Assign key e => map_assign r key e
  | Delete key => map_delete r key
  end.

Fixpoint mutate_all (r : loc) (l : list mutation) : M unit :=
  match l with
  | [] => ret tt
  | mu :: l' => mutate r mu;; mutate_all r l'
  end.

(** The contents of the map [GetCacheMap] returns. *)
Definition snapshot (c : Cache) : M (gmap string CacheEntry) :=
  r ← GetCacheMap c; read_map r.

(** The loop of [reapExpired], as a function on the map alone. *)
Definition sweep_one (c : Cache) (t : Time) (m : gmap string CacheEntry)
    (ke : string * CacheEntry) : gmap string CacheEntry :=
  if interval c <? Sub t (CreatedAt ke.2) then delete ke.1 m else m.

(** The loop of [GetCacheMap], as a function on the map alone. *)
Definition copy_one (m : gmap string CacheEntry) (kv : string * CacheEntry) :
    gmap string CacheEntry :=
  <[kv.1 := kv.2]> m.

(** ** A cache to run the methods on *)

Definition w0 : World := {| maps := ∅; chans := ∅; clock := 0 |}.

(** The cache [NewCache(5 * time.Second)] returns in [w0], and the store it
    leaves. *)
Definition c5 : Cache :=
  {| cache := 0%nat; interval := 5 * Second; stopChan := 0%nat |}.
Definition w5 : World :=
  {| maps := {[0%nat := ∅]}; chans := {[0%nat := ChanOpen]}; clock := 0 |}.

Definition pikachu : bytes := Some (String.list_byte_of_string "pikachu").
Definition charizard : bytes := Some (String.list_byte_of_string "charizard").

(** The scenario of the specification: interval 100ms; insert [key1], wait
    120ms, insert [key2], sweep. *)
Definition c100ms : Cache :=
  {| cache := 0%nat; interval := 100 * Millisecond; stopChan := 0%nat |}.

Definition w_two_keys : World :=
  {| maps := {[0%nat := {["key1" := mkCacheEntry 0 pikachu;
                          "key2" := mkCacheEntry (120 * Millisecond) charizard]} ]};
     chans := {[0%nat := ChanOpen]};
     clock := 120 * Millisecond |}.

(** The store after [Stop] was called once on [c5]. *)
Definition w5_stopped : World :=
  {| maps := {[0%nat := ∅]}; chans := {[0%nat := ChanClosed]}; clock := 0 |}.

(** An entry made at time 0, looked up a minute later in a cache whose
    interval is five seconds. *)
Definition w5_old : World :=
  {| maps := {[0%nat := {["pokemon1" := mkCacheEntry 0 pikachu]} ]};
     chans := {[0%nat := ChanOpen]};
     clock := 60 * Second |}.

(** A cache holding an entry whose value is the nil slice. *)
Definition w5_nil : World :=
  {| maps := {[0%nat := {["nil-value-test" := mkCacheEntry 0 None]} ]};
     chans := {[0%nat := ChanOpen]};
     clock := 0 |}.

(** ** Callers of the cache *)

(** [for key, value := range entries { cache.Add(key, value) }] over the
    pairs [l], in that order. *)
Fixpoint Add_all (c : Cache) (l : list (string * bytes)) : M unit :=
  match l with
  | [] => ret tt
  | kv :: l' => Add c kv.1 kv.2;; Add_all c l'
  end.

(** The entries [Add_all] leaves in a map that held [m], when the clock
    reads [t]. *)
Definition add_one (t : Time) (m : gmap string CacheEntry) (kv : string * bytes) :
    gmap string CacheEntry :=
  <[kv.1 := mkCacheEntry t kv.2]> m.

(** A cache over the entries of [w_two_keys] whose interval is negative. *)
Definition c_negative : Cache :=
  {| cache := 0%nat; interval := -1; stopChan := 0%nat |}.

(** ** The command line (package main) *)

From Stdlib Require Import Ascii.

(** A Go string is a sequence of bytes; the functions below work on it as a
    list of characters. *)

Definition space : ascii := " "%char.

Definition is_space_char (a : ascii) : bool := Ascii.eqb a space.

(** [strings.Contains(text, "  ")] *)
Fixpoint contains_double_space (text : list ascii) : bool :=
  match text with
  | [] => false
  | a :: r =>
      match r with
      | [] => false
      | b :: _ => (is_space_char a && is_space_char b) || contains_double_space r
      end
  end.

(** [strings.ReplaceAll(text, "  ", " ")]: the occurrences of two spaces
    that do not overlap, found from the left, each become one space. *)
Fixpoint replace_double_space (text : list ascii) : list ascii :=
  match text with
  | [] => []
  | a :: r =>
      match r with
      | [] => [a]
      | b :: r' =>
          if is_space_char a && is_space_char b
          then space :: replace_double_space r'
          else a :: replace_double_space r
      end
  end.

(** The loop of [trimMultipleSpaces], entered with the counter at [stop];
    [fuel] bounds the number of passes the model makes. *)
Fixpoint trim_loop (fuel : nat) (stop : Z) (text : list ascii) : list ascii :=
  match fuel with
  | O => text
  | S fuel' =>
      if contains_double_space text then
        let text' := replace_double_space text in
        if 100 <? stop then text' else trim_loop fuel' (stop + 1) text'
      else text
  end.

(** [trimMultipleSpaces]: the loop breaks in the pass it makes with [stop]
    at 101, which is its 102nd. *)
Definition trimMultipleSpaces (text : list ascii) : list ascii :=
  trim_loop 102 0 text.

(** [strings.ToLower] on a character of an ASCII string. *)
Definition lower_char (a : ascii) : ascii :=
  let n := nat_of_ascii a in
  if (65 <=? n)%nat && (n <=? 90)%nat then ascii_of_nat (n + 32) else a.

(** [strings.ToLower] on an ASCII string. *)
Definition ToLower (text : list ascii) : list ascii := map lower_char text.

(** The white space of an ASCII string for [strings.TrimSpace]: tab, line
    feed, vertical tab, form feed, carriage return and space. *)
Definition is_white (a : ascii) : bool :=
  let n := nat_of_ascii a in
  ((9 <=? n)%nat && (n <=? 13)%nat) || (n =? 32)%nat.

Fixpoint trim_left (text : list ascii) : list ascii :=
  match text with
  | [] => []
  | a :: r => if is_white a then trim_left r else text
  end.

(** [strings.TrimSpace] on an ASCII string. *)
Definition TrimSpace (text : list ascii) : list ascii :=
  rev (trim_left (rev (trim_left text))).

(** [strings.Split(text, " ")]: the pieces between the spaces, one more than
    there are spaces. *)
Fixpoint Split (text : list ascii) : list (list ascii) :=
  match text with
  | [] => [[]]
  | a :: r =>
      if is_space_char a then [] :: Split r
      else match Split r with
           | [] => [[a]]
           | p :: ps => (a :: p) :: ps
           end
  end.

Definition text_eqb (s t : list ascii) : bool := bool_decide (s = t).

(** [cleanInput]; the nil slice it returns for blank input is the empty
    list. *)
Definition cleanInput (text : list ascii) : list (list ascii) :=
  let text := ToLower text in
  let text := TrimSpace text in
  let text := trimMultipleSpaces text in
  if text_eqb text [] || text_eqb text [space] then []
  else Split text.

(** A string all of whose bytes are below 128. *)
Definition is_ascii (text : list ascii) : Prop :=
  Forall (λ a, (nat_of_ascii a < 128)%nat) text.

(** Number of places where two spaces are next to each other. *)
Fixpoint space_pairs (text : list ascii) : nat :=
  match text with
  | [] => 0
  | a :: r =>
      match r with
      | [] => 0
      | b :: _ => (if is_space_char a && is_space_char b then 1 else 0) + space_pairs r
      end
  end%nat.

Definition starts_with_space (text : list ascii) : bool :=
  match text with
  | a :: _ => is_space_char a
  | [] => false
  end.

Fixpoint ends_with_space (text : list ascii) : bool :=
  match text with
  | [] => false
  | a :: r =>
      match r with
      | [] => is_space_char a
      | _ :: _ => ends_with_space r
      end
  end.

(** An upper-case letter of ASCII. *)
Definition is_upper (a : ascii) : bool :=
  let n := nat_of_ascii a in (65 <=? n)%nat && (n <=? 90)%nat.

Definition txt (s : string) : list ascii := String.list_ascii_of_string s.

(** *** Requests through the cache *)

(** What [io.ReadAll(resp.Body)] returns: the body, which is never the nil
    slice, or an error. *)
Inductive read_result :=
| ReadOk (body : list Byte.byte)
| ReadFailed (err : string).

(** What the network answers to [http.Get(url)]. *)
Inductive http_answer :=
| GetFailed (err : string)
| Response (StatusCode : Z) (Body : read_result).

(** The errors [makeRequest] builds with [fmt.Errorf], by their format. *)
Inductive request_error :=
| ErrMakingRequest (err : string)
| ErrBadStatus (StatusCode : Z)
| ErrReadingBody (err : string).

Definition StatusOK : Z := 200.

(** [makeRequest]; [net] is the answer the network gives for a URL at the
    time of the call. The result is the pair [(data, err)], [None] for a nil
    error. *)
Definition makeRequest (net : string → http_answer) (url : string) (c : Cache) :
    M (bytes * option request_error) :=
  '(data, found) ← Get c url;
  if found : bool then ret (data, None)
  else
    match net url with
    | GetFailed err => ret (None, Some (ErrMakingRequest err))
    | Response code body =>
        if negb (code =? StatusOK) then ret (None, Some (ErrBadStatus code))
        else
          match body with
          | ReadFailed err => ret (None, Some (ErrReadingBody err))
          | ReadOk b => Add c url (Some b);; ret (Some b, None)
          end
    end.

(** A network that must not be asked: any answer it gave would show. *)
Definition unreachable_net (url : string) : http_answer := GetFailed "unreachable".

(** *** Catching *)

(** The chance of a catch in [commandCatch], in percent, from the base
    experience; [/] on Go's [int] truncates towards zero. *)
Definition catchChance (BaseExperience : Z) : Z :=
  let catchChance := 50 - BaseExperience ÷ 2 in
  let catchChance := if catchChance <? 1 then 1 else catchChance in
  if 90 <? catchChance then 90 else catchChance.

(** Whether the roll [rand.Intn(100) + 1] catches. *)
Definition caught (roll BaseExperience : Z) : bool :=
  roll <=? catchChance BaseExperience.

(** *** Commands *)

Record LocationAreasResponse := mkLocationAreasResponse {
  Count : Z;
  Next : option string;
  Previous : option string;
  Results : list (string * string)
}.

Record Pokemon := mkPokemon {
  Name : string;
  BaseExperience : Z
}.

(** [config]; its [cache] field is [cfg_cache] here, [None] is a nil
    [*string]. *)
Record config := mkConfig {
  nextURL : option string;
  previousURL : option string;
  cfg_cache : Cache;
  pokedex : gmap string Pokemon
}.

(** The lines the commands print, by their format. *)
Inductive line :=
| Blank
| AreaName (name : string)
| FirstPage
| MustProvidePokemon
| Throwing (name : string)
| CouldNotFind (name : string)
| ErrorParsing
| AlreadyCaught (name : string)
| Congratulations (name : string)
| Escaped (name : string).

(** The errors the commands return. *)
Inductive command_error :=
| RequestError (e : request_error)
| ErrUnmarshal (err : string).

Definition first_page : string := "https://pokeapi.co/api/v2/location-area".
Definition pokemon_url (name : string) : string :=
  String.append "https://pokeapi.co/api/v2/pokemon/" name.

Section commands.
(** [json.Unmarshal] into the two response types: the value or the error. *)
Variable Unmarshal_areas : bytes → LocationAreasResponse + string.
Variable Unmarshal_pokemon : bytes → Pokemon + string.
(** The network at the time of the command. *)
Variable net : string → http_answer.

(** The part [commandMap] and [commandMapB] share, from [makeRequest] on.
    The result is the configuration the command leaves, what it printed and
    the error it returned. *)
Definition show_page (url : string) (cfg : config) :
    M (config * list line * option command_error) :=
  '(body, err) ← makeRequest net url (cfg_cache cfg);
  match err with
  | Some e => ret (cfg, [], Some (RequestError e))
  | None =>
      match Unmarshal_areas body with
      | inr msg => ret (cfg, [], Some (ErrUnmarshal msg))
      | inl resp =>
          ret ({| nextURL := Next resp; previousURL := Previous resp;
                  cfg_cache := cfg_cache cfg; pokedex := pokedex cfg |},
               Blank :: map (λ r, AreaName r.1) (Results resp) ++ [Blank],
               None)
      end
  end.

Definition commandMap (cfg : config) :
    M (config * list line * option command_error) :=
  let url := match nextURL cfg with
             | Some next => next
             | None => first_page
             end in
  show_page url cfg.


(** [commandCatch]; [roll] is the value of [rand.Intn(100) + 1]. *)
Definition commandCatch (roll : Z) (cfg : config) (args : list (list string)) :
    M (config * list line * option command_error) :=
  match args with
  | [] | [] :: _ => ret (cfg, [MustProvidePokemon], None)
  | (pokemonName :: _) :: _ =>
      '(body, err) ← makeRequest net (pokemon_url pokemonName) (cfg_cache cfg);
      match err with
      | Some _ => ret (cfg, [Throwing pokemonName; CouldNotFind pokemonName], None)
      | None =>
          match Unmarshal_pokemon body with
          | inr _ => ret (cfg, [Throwing pokemonName; ErrorParsing], None)
          | inl pokeResp =>
              match pokedex cfg !! Name pokeResp with
              | Some _ =>
                  ret (cfg, [Throwing pokemonName; AlreadyCaught (Name pokeResp)], None)
              | None =>
                  if roll <=? catchChance (BaseExperience pokeResp) then
                    ret ({| nextURL := nextURL cfg; previousURL := previousURL cfg;
                            cfg_cache := cfg_cache cfg;
                            pokedex := <[Name pokeResp :=
                                           {| Name := Name pokeResp;
                                              BaseExperience := BaseExperience pokeResp |}]>
                                         (pokedex cfg) |},
                         [Throwing pokemonName; Congratulations (Name pokeResp)], None)
                  else
                    ret (cfg, [Throwing pokemonName; Escaped (Name pokeResp)], None)
              end
          end
      end
  end.
End commands.


(** Decoders and a configuration to run the commands on. *)
Definition sample_areas : LocationAreasResponse :=
  {| Count := 2; Next := Some "https://pokeapi.co/api/v2/location-area?offset=20";
     Previous := None;
     Results := [("canalave-city-area", "https://pokeapi.co/api/v2/location-area/1/");
                 ("eterna-city-area", "https://pokeapi.co/api/v2/location-area/2/")] |}.

Definition sample_Unmarshal_areas (b : bytes) : LocationAreasResponse + string :=
  if decide (String.string_of_list_byte (contents b) = "{areas}")
  then inl sample_areas else inr "invalid character".

Definition sample_Unmarshal_pokemon (b : bytes) : Pokemon + string :=
  if decide (String.string_of_list_byte (contents b) = "{pikachu}")
  then inl {| Name := "pikachu"; BaseExperience := 112 |}
  else inr "invalid character".

Definition cfg5 : config :=
  {| nextURL := None; previousURL := None; cfg_cache := c5; pokedex := ∅ |}.

Definition net_areas (url : string) : http_answer :=
  Response 200 (ReadOk (String.list_byte_of_string "{areas}")).

Definition net_html (url : string) : http_answer :=
  Response 200 (ReadOk (String.list_byte_of_string "<html>")).

Definition net_pikachu (url : string) : http_answer :=
  Response 200 (ReadOk (String.list_byte_of_string "{pikachu}")).

(** ** Basic facts about the store *)

Section store.
Implicit Types (w : World) (r : loc) (m : gmap string CacheEntry).

Lemma set_maps_id w r m :
  maps w !! r = Some m → set_maps <[r := m]> w = w.
Proof.
  intros H. destruct w as [ms cs t]. unfold set_maps. simpl in *.
  f_equal. by apply insert_id.
Qed.

Lemma set_maps_twice w r m1 m2 :
  set_maps <[r := m2]> (set_maps <[r := m1]> w) = set_maps <[r := m2]> w.
Proof.
  destruct w as [ms cs t]. unfold set_maps. simpl.
  f_equal. apply insert_insert_eq.
Qed.

Lemma maps_set_maps_eq w r m : maps (set_maps <[r := m]> w) !! r = Some m.
Proof. simpl. apply lookup_insert_eq. Qed.

Lemma maps_set_maps_ne w r r' m :
  r ≠ r' → maps (set_maps <[r := m]> w) !! r' = maps w !! r'.
Proof. intros. simpl. by apply lookup_insert_ne. Qed.

Lemma read_map_ok w r m : maps w !! r = Some m → read_map r w = Ok m w.
Proof. intros H. unfold read_map. by rewrite H. Qed.

Lemma write_map_ok w r m m' :
  maps w !! r = Some m → write_map r m' w = Ok tt (set_maps <[r := m']> w).
Proof. intros H. unfold write_map. by rewrite H. Qed.

Lemma map_assign_ok w r m key e :
  maps w !! r = Some m →
  map_assign r key e w = Ok tt (set_maps <[r := <[key := e]> m]> w).
Proof.
  intros H. unfold map_assign, mbind, M_bind, bind.
  rewrite (read_map_ok _ _ _ H). by apply write_map_ok with m.
Qed.

Lemma map_delete_ok w r m key :
  maps w !! r = Some m →
  map_delete r key w = Ok tt (set_maps <[r := delete key m]> w).
Proof.
  intros H. unfold map_delete, mbind, M_bind, bind.
  rewrite (read_map_ok _ _ _ H). by apply write_map_ok with m.
Qed.

Lemma make_map_fresh w : maps w !! fresh (dom (maps w)) = None.
Proof. apply not_elem_of_dom, is_fresh. Qed.
End store.

(** ** What each method does to an allocated cache *)

Section methods.
Variable c : Cache.
Implicit Types (w : World) (m : gmap string CacheEntry) (k key : string).

Lemma Add_ok w m key val :
  maps w !! cache c = Some m →
  Add c key val w =
    Ok tt (set_maps <[cache c := <[key := mkCacheEntry (clock w) val]> m]> w).
Proof.
  intros H. unfold Add, mbind, M_bind, bind, now.
  by apply map_assign_ok.
Qed.

Lemma Get_ok w m key :
  maps w !! cache c = Some m →
  Get c key w =
    Ok match m !! key with
       | Some e => (normalize (Val e), true)
       | None => (Some [], false)
       end w.
Proof.
  intros H. unfold Get, map_index, mbind, M_bind, bind.
  rewrite (read_map_ok _ _ _ H). unfold mret, M_ret, ret.
  destruct (m !! key) as [[t [l|]]|]; reflexivity.
Qed.

Lemma Len_ok w m :
  maps w !! cache c = Some m → Len c w = Ok (Z.of_nat (size m)) w.
Proof.
  intros H. unfold Len, mbind, M_bind, bind.
  by rewrite (read_map_ok _ _ _ H).
Qed.

Lemma range_reap_ok t l : ∀ w m,
  maps w !! cache c = Some m →
  range_reap c t l w = Ok tt (set_maps <[cache c := foldl (sweep_one c t) m l]> w).
Proof.
  induction l as [|ke l IH]; intros w m H; simpl.
  - unfold mret, M_ret, ret. by rewrite set_maps_id.
  - unfold mbind, M_bind, bind, reap_one, sweep_one.
    destruct (interval c <? Sub t (CreatedAt ke.2)).
    + rewrite (map_delete_ok _ _ _ _ H).
      rewrite (IH _ (delete ke.1 m)) by apply maps_set_maps_eq.
      by rewrite set_maps_twice.
    + unfold mret, M_ret, ret. by apply IH.
Qed.

Lemma sweep_absent t l : ∀ m k,
  m !! k = None → foldl (sweep_one c t) m l !! k = None.
Proof.
  induction l as [|ke l IH]; intros m k H; simpl; [done|].
  apply IH. unfold sweep_one.
  destruct (interval c <? _); [|done].
  rewrite lookup_delete. by case_decide.
Qed.

Lemma sweep_removed t l : ∀ m k e,
  (k, e) ∈ l → interval c < age t e →
  foldl (sweep_one c t) m l !! k = None.
Proof.
  induction l as [|ke l IH]; intros m k e Hin Hage; simpl.
  - by apply elem_of_nil in Hin.
  - apply elem_of_cons in Hin as [<-|Hin].
    + apply sweep_absent. unfold sweep_one, age in *. simpl.
      destruct (Z.ltb_spec (interval c) (Sub t (CreatedAt e))); [|lia].
      apply lookup_delete_eq.
    + by apply IH with e.
Qed.

Lemma sweep_kept t l : ∀ m k,
  (∀ e, (k, e) ∈ l → age t e ≤ interval c) →
  foldl (sweep_one c t) m l !! k = m !! k.
Proof.
  induction l as [|ke l IH]; intros m k Hall; simpl; [done|].
  rewrite IH.
  - unfold sweep_one.
    destruct (Z.ltb_spec (interval c) (Sub t (CreatedAt ke.2))) as [Hlt|]; [|done].
    apply lookup_delete_ne. intros <-.
    specialize (Hall ke.2). unfold age in Hall.
    destruct ke as [k0 e0]; simpl in *.
    assert (Sub t (CreatedAt e0) ≤ interval c) by (apply Hall; left). lia.
  - intros e He. apply Hall. by right.
Qed.

(** The loop computes [survivors], in whatever order the range visits the
    entries. *)
Lemma sweep_survivors t m l :
  (∀ k e, (k, e) ∈ l ↔ m !! k = Some e) →
  foldl (sweep_one c t) m l = survivors c t m.
Proof.
  intros Hl. apply map_eq. intros k. unfold survivors.
  destruct (m !! k) as [e|] eqn:Hk.
  - destruct (decide (age t e ≤ interval c)) as [Hle|Hgt].
    + rewrite sweep_kept.
      * rewrite Hk. symmetry. by apply map_lookup_filter_Some.
      * intros e' He'. apply Hl in He'. congruence.
    + rewrite (sweep_removed t l m k e); [| by apply Hl | lia].
      symmetry. apply map_lookup_filter_None. right.
      intros e' He' HP. simpl in HP.
      rewrite Hk in He'. injection He' as <-. by apply Hgt.
  - rewrite sweep_absent by done.
    symmetry. apply map_lookup_filter_None. by left.
Qed.

Lemma range_reap_any_order w m l :
  maps w !! cache c = Some m →
  l ≡ₚ map_to_list m →
  range_reap c (clock w) l w =
    Ok tt (set_maps <[cache c := survivors c (clock w) m]> w).
Proof.
  intros H Hl. rewrite (range_reap_ok _ _ _ _ H). do 2 f_equal.
  f_equal. apply sweep_survivors. intros k e.
  rewrite Hl. apply elem_of_map_to_list.
Qed.

Lemma reapExpired_ok w m :
  maps w !! cache c = Some m →
  reapExpired c w = Ok tt (set_maps <[cache c := survivors c (clock w) m]> w).
Proof.
  intros H. unfold reapExpired, mbind, M_bind, bind, now.
  rewrite (read_map_ok _ _ _ H). by apply range_reap_any_order.
Qed.
End methods.

Section copying.
Implicit Types (w : World) (m : gmap string CacheEntry) (r dst : loc).

Lemma range_copy_ok dst l : ∀ w m,
  maps w !! dst = Some m →
  range_copy dst l w = Ok tt (set_maps <[dst := foldl copy_one m l]> w).
Proof.
  induction l as [|kv l IH]; intros w m H; simpl.
  - unfold mret, M_ret, ret. by rewrite set_maps_id.
  - unfold mbind, M_bind, bind.
    rewrite (map_assign_ok _ _ _ _ _ H).
    rewrite (IH _ (<[kv.1 := kv.2]> m)) by apply maps_set_maps_eq.
    by rewrite set_maps_twice.
Qed.

Lemma copy_all_lookup l : ∀ m0 k,
  NoDup l.*1 →
  foldl copy_one m0 l !! k =
    match list_to_map (M := gmap string CacheEntry) l !! k with
    | Some e => Some e
    | None => m0 !! k
    end.
Proof.
  induction l as [|[k0 e0] l IH]; intros m0 k Hnd; simpl.
  - by rewrite lookup_empty.
  - apply NoDup_cons in Hnd as [Hnotin Hnd].
    rewrite IH by done. unfold copy_one. simpl.
    destruct (decide (k0 = k)) as [->|Hne].
    + rewrite lookup_insert_eq.
      assert (list_to_map (M := gmap string CacheEntry) l !! k = None) as ->.
      { by apply not_elem_of_list_to_map_1. }
      by rewrite lookup_insert_eq.
    + by rewrite !lookup_insert_ne.
Qed.

(** Copying every entry of [m] into an empty map yields [m]. *)
Lemma copy_all_empty m : foldl copy_one ∅ (map_to_list m) = m.
Proof.
  apply map_eq. intros k.
  rewrite copy_all_lookup by apply NoDup_fst_map_to_list.
  rewrite list_to_map_to_list, lookup_empty.
  by destruct (m !! k).
Qed.

Lemma GetCacheMap_ok (c : Cache) w m :
  maps w !! cache c = Some m →
  GetCacheMap c w =
    Ok (fresh (dom (maps w))) (set_maps <[fresh (dom (maps w)) := m]> w).
Proof.
  intros H. unfold GetCacheMap, mbind, M_bind, bind.
  rewrite (read_map_ok _ _ _ H). unfold make_map.
  rewrite (range_copy_ok _ _ _ ∅) by apply maps_set_maps_eq.
  unfold mret, M_ret, ret. by rewrite set_maps_twice, copy_all_empty.
Qed.

Lemma mutate_all_ok r l : ∀ w m,
  maps w !! r = Some m →
  ∃ m', mutate_all r l w = Ok tt (set_maps <[r := m']> w).
Proof.
  induction l as [|mu l IH]; intros w m H; simpl.
  - exists m. unfold mret, M_ret, ret. by rewrite set_maps_id.
  - unfold mbind, M_bind, bind. destruct mu as [key e|key]; simpl.
    + rewrite (map_assign_ok _ _ _ _ _ H).
      destruct (IH (set_maps <[r := <[key := e]> m]> w) (<[key := e]> m))
        as [m' ->]; [apply maps_set_maps_eq|].
      exists m'. by rewrite set_maps_twice.
    + rewrite (map_delete_ok _ _ _ _ H).
      destruct (IH (set_maps <[r := delete key m]> w) (delete key m))
        as [m' ->]; [apply maps_set_maps_eq|].
      exists m'. by rewrite set_maps_twice.
Qed.
End copying.

(** Channels are no concern of the methods that work on the map. *)
Section channels_frame.
Variable c : Cache.
Variable f : gmap loc chan_state → gmap loc chan_state.
Implicit Types (w : World).

Lemma set_chans_set_maps g w :
  set_maps g (set_chans f w) = set_chans f (set_maps g w).
Proof. reflexivity. Qed.

Lemma Add_set_chans w key val :
  Add c key val (set_chans f w) = on_world (set_chans f) (Add c key val w).
Proof.
  destruct w as [ms cs t].
  unfold Add, map_assign, mbind, M_bind, bind, now, read_map, write_map.
  simpl. destruct (ms !! cache c) eqn:E; simpl; rewrite ?E; done.
Qed.

Lemma Get_set_chans w key :
  Get c key (set_chans f w) = on_world (set_chans f) (Get c key w).
Proof.
  destruct w as [ms cs t].
  unfold Get, map_index, mbind, M_bind, bind, read_map. simpl.
  destruct (ms !! cache c) as [m|]; [|done].
  unfold mret, M_ret, ret.
  by destruct (m !! key) as [[t' [l|]]|].
Qed.

Lemma Len_set_chans w :
  Len c (set_chans f w) = on_world (set_chans f) (Len c w).
Proof.
  destruct w as [ms cs t].
  unfold Len, mbind, M_bind, bind, read_map. simpl.
  by destruct (ms !! cache c).
Qed.
End channels_frame.

Section stopping.
Variable c : Cache.
Implicit Types (w : World).

Lemma Stop_inv w w' :
  Stop c w = Ok tt w' →
  chans w !! stopChan c = Some ChanOpen ∧
  w' = set_chans <[stopChan c := ChanClosed]> w.
Proof.
  unfold Stop, close. destruct (chans w !! stopChan c) as [[|]|]; [|done..].
  intros [= <-]. done.
Qed.


Lemma Stop_closed w :
  chans w !! stopChan c = Some ChanClosed →
  Stop c w = Panic "close of closed channel".
Proof. intros H. unfold Stop, close. by rewrite H. Qed.
End stopping.

(** A cache made by [NewCache] is allocated and its channel open. *)
Lemma NewCache_ok (d : Duration) (w : World) :
  ∃ c w', NewCache d w = Ok c w' ∧ interval c = d ∧
    maps w' !! cache c = Some ∅ ∧ chans w' !! stopChan c = Some ChanOpen.
Proof.
  eexists _, _. split; [reflexivity|]. simpl.
  by rewrite !lookup_insert_eq.
Qed.

Example NewCache_c5 : NewCache (5 * Second) w0 = Ok c5 w5.
Proof. reflexivity. Qed.

(** Sweeping what a sweep kept keeps all of it. *)
Lemma survivors_idemp (c : Cache) (t : Time) (m : gmap string CacheEntry) :
  survivors c t (survivors c t m) = survivors c t m.
Proof.
  unfold survivors. apply map_eq. intros k.
  destruct (filter (λ ke, age t ke.2 ≤ interval c) m !! k) as [e|] eqn:Hk.
  - apply map_lookup_filter_Some. split; [done|].
    by apply map_lookup_filter_Some in Hk as [_ ?].
  - apply map_lookup_filter_None. by left.
Qed.

Lemma reapExpired_unallocated (c : Cache) (w : World) :
  maps w !! cache c = None → reapExpired c w = Panic nil_deref.
Proof.
  intros H. unfold reapExpired, mbind, M_bind, bind, now, read_map.
  by rewrite H.
Qed.

Lemma snapshot_ok (c : Cache) (w : World) (m : gmap string CacheEntry) :
  maps w !! cache c = Some m → value_of (snapshot c w) = Some m.
Proof.
  intros H. unfold snapshot, mbind, M_bind, bind.
  rewrite (GetCacheMap_ok _ _ _ H). unfold read_map.
  by rewrite maps_set_maps_eq.
Qed.

(** ** Facts about the vocabulary *)

Lemma Sub_exact (t u : Time) :
  minDuration ≤ t - u ≤ maxDuration → Sub t u = t - u.
Proof.
  intros [Hlo Hhi]. unfold Sub.
  destruct (Z.ltb_spec maxDuration (t - u)); [lia|].
  destruct (Z.ltb_spec (t - u) minDuration); [lia|done].
Qed.

Lemma Sub_range (t u : Time) : minDuration ≤ Sub t u ≤ maxDuration.
Proof.
  unfold Sub, minDuration, maxDuration.
  destruct (Z.ltb_spec 9223372036854775807 (t - u)); [lia|].
  destruct (Z.ltb_spec (t - u) (-9223372036854775808)); lia.
Qed.

Lemma normalize_not_nil (v : bytes) : normalize v ≠ None.
Proof. by destruct v. Qed.

Lemma normalize_contents (v : bytes) : contents (normalize v) = contents v.
Proof. by destruct v. Qed.

Lemma normalize_non_nil (v : bytes) : v ≠ None → normalize v = v.
Proof. by destruct v. Qed.

Lemma normalize_nil : normalize None = Some [] ∧ len_bytes (normalize None) = 0%nat.
Proof. done. Qed.

(** ** The properties of the specification *)

(** C1. For every key [k] and value [v], [Add(k, v)] followed by [Get(k)],
    with no sweep in between (time may pass), returns [v] normalized (the
    nil slice as the empty one) together with [true]. *)
Theorem Add_then_Get (c : Cache) (w : World) (m : gmap string CacheEntry)
    (k : string) (v : bytes) (d : Duration) :
  maps w !! cache c = Some m →
  (Add c k v;; Sleep d;; Get c k) w =
    Ok (normalize v, true)
       (set_clock (λ t, t + Z.max 0 d)
          (set_maps <[cache c := <[k := mkCacheEntry (clock w) v]> m]> w)).
Proof.
  intros H. unfold mbind, M_bind, bind at 1.
  rewrite (Add_ok _ _ _ _ _ H). unfold bind, Sleep.
  erewrite Get_ok; last by (simpl; apply lookup_insert_eq).
  by rewrite lookup_insert_eq.
Qed.

Lemma Add_then_Get_witness :
  maps w5 !! cache c5 = Some ∅ ∧
  (Add c5 "pokemon1" pikachu;; Sleep Second;; Get c5 "pokemon1") w5 =
    Ok (normalize pikachu, true)
       (set_clock (λ t, t + Z.max 0 Second)
          (set_maps <[cache c5 := <["pokemon1" := mkCacheEntry (clock w5) pikachu]> ∅]> w5)).
Proof.
  split; [reflexivity|].
  apply (Add_then_Get c5 w5 ∅ "pokemon1" pikachu Second). reflexivity.
Defined.

(** C2. One sweep at time [clock w] removes exactly the entries whose age
    strictly exceeds the interval; an entry whose age is at most the interval
    is still there afterwards with the same value and timestamp; the sweep
    adds nothing. *)
Theorem reapExpired_removes_exactly (c : Cache) (w : World)
    (m : gmap string CacheEntry) :
  maps w !! cache c = Some m →
  ∃ w' m',
    reapExpired c w = Ok tt w' ∧
    maps w' !! cache c = Some m' ∧
    (∀ k e, m !! k = Some e →
       (m' !! k = None ↔ interval c < age (clock w) e) ∧
       (age (clock w) e ≤ interval c → m' !! k = Some e)) ∧
    (∀ k, m !! k = None → m' !! k = None).
Proof.
  intros H. exists (set_maps <[cache c := survivors c (clock w) m]> w),
    (survivors c (clock w) m).
  split; [by apply reapExpired_ok|].
  split; [apply maps_set_maps_eq|].
  unfold survivors. split.
  - intros k e Hk. split; [split|].
    + intros Hnone. apply map_lookup_filter_None in Hnone as [Hnone|Hnone].
      * congruence.
      * specialize (Hnone e Hk). simpl in Hnone. lia.
    + intros Hage. apply map_lookup_filter_None. right.
      intros e' He'. simpl. rewrite Hk in He'. injection He' as <-. lia.
    + intros Hage. by apply map_lookup_filter_Some.
  - intros k Hk. apply map_lookup_filter_None. by left.
Qed.

Example two_keys_built :
  (c ← NewCache (100 * Millisecond);
   Add c "key1" pikachu;; Sleep (120 * Millisecond);; Add c "key2" charizard;;
   ret c) w0 = Ok c100ms w_two_keys.
Proof. vm_compute. reflexivity. Qed.

Example two_keys_swept :
  value_of ((reapExpired c100ms;;
             g1 ← Get c100ms "key1"; g2 ← Get c100ms "key2"; ret (g1, g2))
            w_two_keys)
  = Some ((Some [], false), (charizard, true)).
Proof. vm_compute. reflexivity. Qed.

Lemma reapExpired_removes_exactly_witness :
  maps w_two_keys !! cache c100ms =
    Some {["key1" := mkCacheEntry 0 pikachu;
           "key2" := mkCacheEntry (120 * Millisecond) charizard]} ∧
  ∃ w' m',
    reapExpired c100ms w_two_keys = Ok tt w' ∧
    maps w' !! cache c100ms = Some m' ∧
    (∀ k e, ({["key1" := mkCacheEntry 0 pikachu;
               "key2" := mkCacheEntry (120 * Millisecond) charizard]}
             : gmap string CacheEntry) !! k = Some e →
       (m' !! k = None ↔ interval c100ms < age (clock w_two_keys) e) ∧
       (age (clock w_two_keys) e ≤ interval c100ms → m' !! k = Some e)) ∧
    (∀ k, ({["key1" := mkCacheEntry 0 pikachu;
             "key2" := mkCacheEntry (120 * Millisecond) charizard]}
           : gmap string CacheEntry) !! k = None → m' !! k = None).
Proof.
  split; [reflexivity|].
  apply (reapExpired_removes_exactly c100ms w_two_keys). reflexivity.
Defined.

(** C3, as stated, fails: on the cache of [NewCache(5 * time.Second)] the
    first [Stop] returns and the second one panics. *)
Lemma Stop_twice_crashes :
  Stop c5 w5 = Ok tt w5_stopped ∧
  Stop c5 w5_stopped = Panic "close of closed channel" ∧
  (c ← NewCache (5 * Second); Stop c;; Stop c) w0 = Panic "close of closed channel".
Proof. repeat split; vm_compute; reflexivity. Qed.

(** C3, amended. A second [Stop] is a detectable misuse error and not a
    no-op: on every cache on which [Stop] has returned once, another [Stop]
    panics with the runtime error of closing a closed channel, whatever
    [Add], [Get], [Len], sweeps or waiting happened in between. *)
Theorem Stop_twice_panics (c : Cache) (w w' : World) :
  Stop c w = Ok tt w' →
  Stop c w' = Panic "close of closed channel" ∧
  (∀ w'', chans w'' = chans w' → Stop c w'' = Panic "close of closed channel").
Proof.
  intros H. apply Stop_inv in H as [_ ->].
  assert (∀ w'', chans w'' = chans (set_chans <[stopChan c := ChanClosed]> w) →
                 Stop c w'' = Panic "close of closed channel") as Hall.
  { intros w'' Hch. apply Stop_closed. rewrite Hch. simpl.
    apply lookup_insert_eq. }
  split; [by apply Hall | exact Hall].
Qed.

Lemma Stop_twice_panics_witness :
  Stop c5 w5 = Ok tt w5_stopped ∧
  Stop c5 w5_stopped = Panic "close of closed channel" ∧
  (∀ w'', chans w'' = chans w5_stopped →
          Stop c5 w'' = Panic "close of closed channel").
Proof.
  split; [reflexivity|].
  apply (Stop_twice_panics c5 w5 w5_stopped). reflexivity.
Defined.

(** C4. [Get] does not look at the clock: a key present in the map is
    returned with its stored value (the same bytes, the nil slice as the
    empty one) and [true] whatever the age of its entry, also when the age
    exceeds the interval and however long one waits first; [(empty, false)]
    is returned exactly when the key is absent from the map. *)
Theorem Get_ignores_age (c : Cache) (w : World) (m : gmap string CacheEntry)
    (k : string) :
  maps w !! cache c = Some m →
  (∀ e, m !! k = Some e →
     Get c k w = Ok (normalize (Val e), true) w ∧
     contents (normalize (Val e)) = contents (Val e) ∧
     (Val e ≠ None → normalize (Val e) = Val e) ∧
     (interval c < age (clock w) e → value_of (Get c k w) = Some (normalize (Val e), true)) ∧
     (∀ d, value_of ((Sleep d;; Get c k) w) = Some (normalize (Val e), true))) ∧
  (m !! k = None → Get c k w = Ok (Some [], false) w) ∧
  (∀ v w', Get c k w = Ok (v, false) w' → m !! k = None ∧ v = Some []).
Proof.
  intros H. rewrite (Get_ok _ _ _ _ H). split; [|split].
  - intros e He. rewrite He. split; [done|].
    split; [apply normalize_contents|].
    split; [apply normalize_non_nil|].
    split; [done|].
    intros d. unfold mbind, M_bind, bind, Sleep.
    erewrite Get_ok; last by (simpl; exact H). by rewrite He.
  - by intros ->.
  - intros v w'. destruct (m !! k); [done|]. by intros [= <- <-].
Qed.

Example Get_old_entry :
  (interval c5 <? age (clock w5_old) (mkCacheEntry 0 pikachu)) = true ∧
  Get c5 "pokemon1" w5_old = Ok (pikachu, true) w5_old.
Proof. split; reflexivity. Qed.

Lemma Get_ignores_age_witness :
  maps w5_old !! cache c5 = Some {["pokemon1" := mkCacheEntry 0 pikachu]} ∧
  Get c5 "pokemon1" w5_old = Ok (pikachu, true) w5_old ∧
  Get c5 "pokemon2" w5_old = Ok (Some [], false) w5_old.
Proof.
  split; [reflexivity|].
  destruct (Get_ignores_age c5 w5_old {["pokemon1" := mkCacheEntry 0 pikachu]}
              "pokemon1" eq_refl) as (Hpresent & _ & _).
  destruct (Get_ignores_age c5 w5_old {["pokemon1" := mkCacheEntry 0 pikachu]}
              "pokemon2" eq_refl) as (_ & Habsent & _).
  split.
  - apply (Hpresent (mkCacheEntry 0 pikachu)). reflexivity.
  - apply Habsent. reflexivity.
Defined.

(** C5. Overwriting is last-writer-wins: after [Add(k, v1)], [Add(k, v2)]
    and then [Get(k)] (time may pass in between, no sweep runs), [Get]
    returns [v2] and [true], which is not [v1] when the two differ, and the
    entry's [CreatedAt] is the clock reading of the second [Add]. *)
Theorem Add_overwrites (c : Cache) (w : World) (m : gmap string CacheEntry)
    (k : string) (v1 v2 : bytes) (d1 d2 : Duration) :
  maps w !! cache c = Some m →
  ∃ w1 w2 w3 m3,
    (Add c k v1;; Sleep d1) w = Ok tt w1 ∧
    (Add c k v2;; Sleep d2) w1 = Ok tt w2 ∧
    Get c k w2 = Ok (normalize v2, true) w3 ∧
    (contents v1 ≠ contents v2 → contents (normalize v2) ≠ contents v1) ∧
    maps w3 !! cache c = Some m3 ∧
    m3 !! k = Some {| CreatedAt := clock w1; Val := v2 |} ∧
    m3 = <[k := {| CreatedAt := clock w1; Val := v2 |}]> m.
Proof.
  intros H.
  set (wa := set_maps <[cache c := <[k := mkCacheEntry (clock w) v1]> m]> w).
  set (w1 := set_clock (λ t, t + Z.max 0 d1) wa).
  set (wb := set_maps <[cache c := <[k := mkCacheEntry (clock w1) v2]>
                                     (<[k := mkCacheEntry (clock w) v1]> m)]> w1).
  set (w2 := set_clock (λ t, t + Z.max 0 d2) wb).
  assert (maps w1 !! cache c = Some (<[k := mkCacheEntry (clock w) v1]> m)) as H1.
  { simpl. apply lookup_insert_eq. }
  assert (maps w2 !! cache c =
          Some (<[k := mkCacheEntry (clock w1) v2]> (<[k := mkCacheEntry (clock w) v1]> m)))
    as H2.
  { simpl. apply lookup_insert_eq. }
  exists w1, w2, w2, (<[k := mkCacheEntry (clock w1) v2]> m).
  split; [|split; [|split; [|split; [|split; [|split]]]]].
  - unfold mbind, M_bind, bind. by rewrite (Add_ok _ _ _ _ _ H).
  - unfold mbind, M_bind, bind. by rewrite (Add_ok _ _ _ _ _ H1).
  - rewrite (Get_ok _ _ _ _ H2). by rewrite lookup_insert_eq.
  - by rewrite normalize_contents.
  - rewrite H2. f_equal. apply insert_insert_eq.
  - apply lookup_insert_eq.
  - done.
Qed.

Lemma Add_overwrites_witness :
  maps w5 !! cache c5 = Some ∅ ∧
  ∃ w1 w2 w3 m3,
    (Add c5 "pokemon1" pikachu;; Sleep Second) w5 = Ok tt w1 ∧
    (Add c5 "pokemon1" charizard;; Sleep Second) w1 = Ok tt w2 ∧
    Get c5 "pokemon1" w2 = Ok (normalize charizard, true) w3 ∧
    (contents pikachu ≠ contents charizard →
     contents (normalize charizard) ≠ contents pikachu) ∧
    maps w3 !! cache c5 = Some m3 ∧
    m3 !! "pokemon1" = Some {| CreatedAt := clock w1; Val := charizard |} ∧
    m3 = <["pokemon1" := {| CreatedAt := clock w1; Val := charizard |}]> ∅.
Proof.
  split; [reflexivity|].
  apply (Add_overwrites c5 w5 ∅ "pokemon1" pikachu charizard Second Second).
  reflexivity.
Defined.

Example overwrite_run :
  value_of ((Add c5 "pokemon1" pikachu;; Sleep Second;;
             Add c5 "pokemon1" charizard;;
             g ← Get c5 "pokemon1"; r ← GetCacheMap c5; m ← read_map r;
             ret (g, map_to_list m)) w5)
  = Some ((charizard, true), [("pokemon1", mkCacheEntry Second charizard)]).
Proof. vm_compute. reflexivity. Qed.

(** C6. [Get] never returns the nil slice, with [found] true or false; when
    the entry stored for [k] holds the nil slice (the last [Add] for [k]
    passed nil and no sweep removed it), [Get(k)] returns the empty slice,
    of length 0, and [true]. *)
Theorem Get_never_nil (c : Cache) (w : World) (k : string) :
  (∀ v found w', Get c k w = Ok (v, found) w' → v ≠ None) ∧
  (∀ m e, maps w !! cache c = Some m → m !! k = Some e → Val e = None →
     Get c k w = Ok (Some [], true) w ∧ len_bytes (Some []) = 0%nat) ∧
  (∀ m d, maps w !! cache c = Some m →
     value_of ((Add c k None;; Sleep d;; Get c k) w) = Some (Some [], true)).
Proof.
  split; [|split].
  - intros v found w'. destruct (maps w !! cache c) as [m|] eqn:H.
    + rewrite (Get_ok _ _ _ _ H).
      destruct (m !! k) as [e|]; intros [= <- _ _]; [apply normalize_not_nil|done].
    + unfold Get, map_index, mbind, M_bind, bind, read_map. by rewrite H.
  - intros m e H Hk Hnil. rewrite (Get_ok _ _ _ _ H), Hk, Hnil. done.
  - intros m d H. unfold mbind, M_bind, bind at 1.
    rewrite (Add_ok _ _ _ _ _ H). unfold bind, Sleep.
    erewrite Get_ok; last by (simpl; apply lookup_insert_eq).
    by rewrite lookup_insert_eq.
Qed.

Example Add_nil_built : Add c5 "nil-value-test" None w5 = Ok tt w5_nil.
Proof. vm_compute. reflexivity. Qed.

Lemma Get_never_nil_witness :
  Get c5 "nil-value-test" w5_nil = Ok (Some [], true) w5_nil ∧
  (Some [] : bytes) ≠ None ∧
  value_of ((Add c5 "nil-value-test" None;; Sleep Second;;
             Get c5 "nil-value-test") w5) = Some (Some [], true).
Proof.
  destruct (Get_never_nil c5 w5_nil "nil-value-test") as (Hnn & Hnil & _).
  destruct (Get_never_nil c5 w5 "nil-value-test") as (_ & _ & Hadd).
  destruct (Hnil {["nil-value-test" := mkCacheEntry 0 None]} (mkCacheEntry 0 None)
              eq_refl eq_refl eq_refl) as [Hget _].
  split; [exact Hget|]. split.
  - exact (Hnn (Some []) true w5_nil Hget).
  - apply (Hadd ∅ Second). reflexivity.
Defined.

(** C7. The sweep is idempotent: two sweeps in a row at the same clock
    reading, nothing inserted in between, leave the store one sweep
    leaves; the second sweep removes nothing. A sweep of an allocated cache
    always returns. *)
Theorem reapExpired_idempotent (c : Cache) (w : World) :
  (reapExpired c;; reapExpired c) w = reapExpired c w ∧
  (∀ w', reapExpired c w = Ok tt w' → reapExpired c w' = Ok tt w') ∧
  (∀ m, maps w !! cache c = Some m →
     reapExpired c w = Ok tt (set_maps <[cache c := survivors c (clock w) m]> w)).
Proof.
  assert (∀ w', reapExpired c w = Ok tt w' → reapExpired c w' = Ok tt w') as Hsnd.
  { intros w'. destruct (maps w !! cache c) as [m|] eqn:H.
    - rewrite (reapExpired_ok _ _ _ H). intros [= <-].
      erewrite reapExpired_ok; last apply maps_set_maps_eq.
      simpl clock. by rewrite survivors_idemp, set_maps_twice.
    - by rewrite reapExpired_unallocated. }
  split; [|split; [exact Hsnd|]].
  - unfold mbind, M_bind, bind.
    destruct (reapExpired c w) as [[] w'|msg] eqn:E; [|done].
    by apply Hsnd.
  - intros m H. by apply reapExpired_ok.
Qed.

Lemma reapExpired_idempotent_witness :
  ∃ w',
    reapExpired c100ms w_two_keys = Ok tt w' ∧
    reapExpired c100ms w' = Ok tt w' ∧
    (reapExpired c100ms;; reapExpired c100ms) w_two_keys = Ok tt w'.
Proof.
  destruct (reapExpired_idempotent c100ms w_two_keys) as (Htwice & Hsnd & Hok).
  eexists. split; [|split].
  - apply Hok. reflexivity.
  - apply Hsnd, Hok. reflexivity.
  - rewrite Htwice. apply Hok. reflexivity.
Defined.

(** C8. [Stop] touches the stop channel and nothing else: the maps (key
    sets, values, timestamps) and the clock are as before, and [Add], [Get]
    and [Len] after [Stop] do what they do without it. Of the reaper, the
    stop case of its [select] could not be taken before [Stop] and can be
    taken after it, and a reaper that has returned sweeps no more. *)
Theorem Stop_frame (c : Cache) (w w' : World) :
  Stop c w = Ok tt w' →
  let closed := set_chans <[stopChan c := ChanClosed]> in
  w' = closed w ∧ maps w' = maps w ∧ clock w' = clock w ∧
  (∀ k v, Add c k v w' = on_world closed (Add c k v w)) ∧
  (∀ k, Get c k w' = on_world closed (Get c k w)) ∧
  Len c w' = on_world closed (Len c w) ∧
  reapLoop_iter c CaseStop AtSelect w = None ∧
  reapLoop_iter c CaseStop AtSelect w' = Some (Ok Returned w') ∧
  (∀ case w'', reapLoop_iter c case Returned w'' = None).
Proof.
  intros H closed. apply Stop_inv in H as [Hopen ->]. fold closed.
  split; [done|]. split; [done|]. split; [done|].
  split; [intros; apply Add_set_chans|].
  split; [intros; apply Get_set_chans|].
  split; [apply Len_set_chans|].
  split; [|split].
  - unfold reapLoop_iter, stop_ready. by rewrite Hopen.
  - unfold reapLoop_iter, stop_ready. simpl. by rewrite lookup_insert_eq.
  - by intros [].
Qed.

Lemma Stop_frame_witness :
  Stop c100ms w_two_keys = Ok tt (set_chans <[stopChan c100ms := ChanClosed]> w_two_keys) ∧
  maps (set_chans <[stopChan c100ms := ChanClosed]> w_two_keys) = maps w_two_keys ∧
  Get c100ms "key1" (set_chans <[stopChan c100ms := ChanClosed]> w_two_keys) =
    on_world (set_chans <[stopChan c100ms := ChanClosed]>) (Get c100ms "key1" w_two_keys).
Proof.
  assert (Stop c100ms w_two_keys =
          Ok tt (set_chans <[stopChan c100ms := ChanClosed]> w_two_keys)) as H
    by reflexivity.
  split; [exact H|].
  destruct (Stop_frame c100ms w_two_keys _ H) as (_ & Hmaps & _ & _ & Hget & _).
  split; [exact Hmaps | apply Hget].
Defined.

Example after_Stop_run :
  value_of ((Stop c100ms;; Add c100ms "key3" pikachu;;
             g ← Get c100ms "key3"; n ← Len c100ms; ret (g, n)) w_two_keys)
  = Some ((pikachu, true), 3).
Proof. vm_compute. reflexivity. Qed.

(** C9. [GetCacheMap] returns a map object of its own, holding the entries
    of the cache: whatever entries the caller then assigns to or deletes
    from that map, [Get], [Len] and [GetCacheMap] on the cache return what
    they returned before. *)
Theorem GetCacheMap_independent (c : Cache) (w : World)
    (m : gmap string CacheEntry) (l : list mutation) :
  maps w !! cache c = Some m →
  ∃ r w1 w2,
    GetCacheMap c w = Ok r w1 ∧
    r ≠ cache c ∧
    maps w1 !! r = Some m ∧
    mutate_all r l w1 = Ok tt w2 ∧
    maps w2 !! cache c = Some m ∧
    (∀ k, value_of (Get c k w2) = value_of (Get c k w1) ∧
          is_Some (value_of (Get c k w1))) ∧
    value_of (Len c w2) = value_of (Len c w1) ∧
    value_of (Len c w1) = Some (Z.of_nat (size m)) ∧
    value_of (snapshot c w2) = value_of (snapshot c w1) ∧
    value_of (snapshot c w1) = Some m.
Proof.
  intros H.
  set (r := fresh (dom (maps w))).
  assert (r ≠ cache c) as Hne.
  { intros Heq. pose proof (make_map_fresh w) as Hfresh.
    fold r in Hfresh. rewrite Heq in Hfresh. congruence. }
  set (w1 := set_maps <[r := m]> w).
  assert (maps w1 !! r = Some m) as Hr by apply maps_set_maps_eq.
  assert (maps w1 !! cache c = Some m) as H1.
  { unfold w1. by rewrite maps_set_maps_ne. }
  destruct (mutate_all_ok r l w1 m Hr) as [m' Hmut].
  set (w2 := set_maps <[r := m']> w1) in *.
  assert (maps w2 !! cache c = Some m) as H2.
  { unfold w2. by rewrite maps_set_maps_ne. }
  exists r, w1, w2.
  split; [by apply GetCacheMap_ok|].
  split; [done|]. split; [done|]. split; [done|]. split; [done|].
  split; [|split; [|split; [|split]]].
  - intros k. rewrite (Get_ok _ _ _ _ H2), (Get_ok _ _ _ _ H1). simpl. eauto.
  - by rewrite (Len_ok _ _ _ H2), (Len_ok _ _ _ H1).
  - by rewrite (Len_ok _ _ _ H1).
  - by rewrite (snapshot_ok _ _ _ H2), (snapshot_ok _ _ _ H1).
  - by apply snapshot_ok.
Qed.

Lemma GetCacheMap_independent_witness :
  maps w_two_keys !! cache c100ms =
    Some {["key1" := mkCacheEntry 0 pikachu;
           "key2" := mkCacheEntry (120 * Millisecond) charizard]} ∧
  ∃ r w1 w2,
    GetCacheMap c100ms w_two_keys = Ok r w1 ∧
    r ≠ cache c100ms ∧
    mutate_all r [Delete "key1"; Assign "key2" (mkCacheEntry 7 None);
                  Assign "key3" (mkCacheEntry 8 pikachu)] w1 = Ok tt w2 ∧
    (∀ k, value_of (Get c100ms k w2) = value_of (Get c100ms k w1)) ∧
    value_of (Len c100ms w2) = Some (Z.of_nat 2).
Proof.
  split; [reflexivity|].
  destruct (GetCacheMap_independent c100ms w_two_keys _
              [Delete "key1"; Assign "key2" (mkCacheEntry 7 None);
               Assign "key3" (mkCacheEntry 8 pikachu)] eq_refl)
    as (r & w1 & w2 & Hcopy & Hne & _ & Hmut & _ & Hget & Hlen & Hlen1 & _).
  exists r, w1, w2.
  split; [exact Hcopy|]. split; [exact Hne|]. split; [exact Hmut|].
  split; [intros k; apply Hget|].
  rewrite Hlen, Hlen1. reflexivity.
Defined.

Example mutate_copy_run :
  value_of ((r ← GetCacheMap c100ms;
             mutate_all r [Delete "key1"; Assign "key3" (mkCacheEntry 8 pikachu)];;
             g1 ← Get c100ms "key1"; g3 ← Get c100ms "key3"; n ← Len c100ms;
             copy ← read_map r;
             ret (g1, g3, n, (map_to_list copy).*1)) w_two_keys)
  = Some ((pikachu, true), (Some [], false), 2, ["key3"; "key2"]).
Proof. vm_compute. reflexivity. Qed.

(** C10. [Add] stores the value as passed, without normalizing it: after
    [Add(k, nil)] the entry's [Val] is the nil slice, the map returned by
    [GetCacheMap] shows that nil [Val], and only [Get] turns it into the
    empty slice. *)
Theorem Add_stores_as_passed (c : Cache) (w : World)
    (m : gmap string CacheEntry) (k : string) :
  maps w !! cache c = Some m →
  (∀ v, ∃ w1 m1,
     Add c k v w = Ok tt w1 ∧ maps w1 !! cache c = Some m1 ∧
     m1 !! k = Some {| CreatedAt := clock w; Val := v |}) ∧
  ∃ w1 m1,
    Add c k None w = Ok tt w1 ∧
    maps w1 !! cache c = Some m1 ∧
    Val <$> m1 !! k = Some None ∧
    value_of (snapshot c w1) = Some m1 ∧
    value_of ((copy ← snapshot c; ret (Val <$> copy !! k)) w1) = Some (Some None) ∧
    value_of (Get c k w1) = Some (Some [], true).
Proof.
  intros H. split.
  - intros v. eexists _, _. split; [by apply Add_ok|].
    split; [apply maps_set_maps_eq|]. apply lookup_insert_eq.
  - eexists _, _. split; [by apply Add_ok|].
    assert (maps (set_maps <[cache c := <[k := mkCacheEntry (clock w) None]> m]> w)
              !! cache c = Some (<[k := mkCacheEntry (clock w) None]> m)) as H1
      by apply maps_set_maps_eq.
    split; [exact H1|].
    split; [by rewrite lookup_insert_eq|].
    split; [by apply snapshot_ok|].
    split.
    + unfold snapshot, mbind, M_bind, bind.
      rewrite (GetCacheMap_ok _ _ _ H1). unfold read_map.
      rewrite maps_set_maps_eq. simpl. by rewrite lookup_insert_eq.
    + rewrite (Get_ok _ _ _ _ H1). by rewrite lookup_insert_eq.
Qed.

Lemma Add_stores_as_passed_witness :
  maps w5 !! cache c5 = Some ∅ ∧
  ∃ w1 m1,
    Add c5 "nil-value-test" None w5 = Ok tt w1 ∧
    maps w1 !! cache c5 = Some m1 ∧
    Val <$> m1 !! "nil-value-test" = Some None ∧
    value_of (snapshot c5 w1) = Some m1 ∧
    value_of ((copy ← snapshot c5; ret (Val <$> copy !! "nil-value-test")) w1)
      = Some (Some None) ∧
    value_of (Get c5 "nil-value-test" w1) = Some (Some [], true).
Proof.
  split; [reflexivity|].
  apply (Add_stores_as_passed c5 w5 ∅ "nil-value-test"). reflexivity.
Defined.

Example nil_value_run :
  value_of ((Add c5 "nil-value-test" None;;
             g ← Get c5 "nil-value-test"; copy ← snapshot c5;
             ret (g, Val <$> copy !! "nil-value-test")) w5)
  = Some ((Some [], true), Some None).
Proof. vm_compute. reflexivity. Qed.

(** ** Further properties of the cache *)

Lemma Sub_mono (t t' u : Time) : t ≤ t' → Sub t u ≤ Sub t' u.
Proof.
  intros H. unfold Sub, maxDuration, minDuration.
  repeat match goal with |- context [?a <? ?b] => destruct (Z.ltb_spec a b) end; lia.
Qed.

Lemma Sub_elapsed (t : Time) (d : Duration) :
  d ≤ maxDuration → Sub (t + Z.max 0 d) t = Z.max 0 d.
Proof.
  intros H. rewrite Sub_exact; unfold minDuration, maxDuration in *; lia.
Qed.

Lemma Get_value (c : Cache) (w : World) (m : gmap string CacheEntry) (k : string) :
  maps w !! cache c = Some m →
  value_of (Get c k w) =
    Some match m !! k with
         | Some e => (normalize (Val e), true)
         | None => (Some [], false)
         end.
Proof. intros H. by rewrite (Get_ok _ _ _ _ H). Qed.

Lemma Len_value (c : Cache) (w : World) (m : gmap string CacheEntry) :
  maps w !! cache c = Some m → value_of (Len c w) = Some (Z.of_nat (size m)).
Proof. intros H. by rewrite (Len_ok _ _ _ H). Qed.



(** X2. [Add(k, v)] touches the entry of [k] in this cache and nothing else:
    every other key is looked up as before, [Len] grows by one when [k] was
    absent and stays when [k] was present, and the other maps, the channels
    and the clock are untouched. *)
Theorem Add_touches_one_key (c : Cache) (w : World) (m : gmap string CacheEntry)
    (k : string) (v : bytes) :
  maps w !! cache c = Some m →
  ∃ w',
    Add c k v w = Ok tt w' ∧
    (∀ k', k' ≠ k → value_of (Get c k' w') = value_of (Get c k' w)) ∧
    value_of (Len c w') =
      Some (Z.of_nat (size m) + if m !! k is Some _ then 0 else 1) ∧
    (∀ r, r ≠ cache c → maps w' !! r = maps w !! r) ∧
    chans w' = chans w ∧ clock w' = clock w.
Proof.
  intros H. eexists. split; [by apply Add_ok|].
  assert (maps (set_maps <[cache c := <[k := mkCacheEntry (clock w) v]> m]> w)
            !! cache c = Some (<[k := mkCacheEntry (clock w) v]> m)) as H'
    by apply maps_set_maps_eq.
  split; [|split; [|split; [|done]]].
  - intros k' Hne.
    rewrite (Get_value _ _ _ _ H'), (Get_value _ _ _ _ H).
    by rewrite lookup_insert_ne.
  - rewrite (Len_value _ _ _ H'). f_equal.
    destruct (m !! k) as [e|] eqn:Hk.
    + rewrite <- (insert_delete_id m k e Hk) at 2.
      rewrite <- (insert_delete_eq m) at 1.
      rewrite !map_size_insert_None by apply lookup_delete_eq. lia.
    + rewrite map_size_insert_None by done. lia.
  - intros r Hne. by apply maps_set_maps_ne.
Qed.

Lemma Add_touches_one_key_witness :
  ∃ w',
    Add c100ms "key3" pikachu w_two_keys = Ok tt w' ∧
    value_of (Get c100ms "key1" w') = value_of (Get c100ms "key1" w_two_keys) ∧
    value_of (Len c100ms w') = Some 3.
Proof.
  destruct (Add_touches_one_key c100ms w_two_keys _ "key3" pikachu eq_refl)
    as (w' & Hadd & Hget & Hlen & _).
  exists w'. split; [exact Hadd|]. split.
  - apply Hget. discriminate.
  - rewrite Hlen. reflexivity.
Defined.

Section adding_many.
Variable c : Cache.
Implicit Types (w : World) (m : gmap string CacheEntry) (l : list (string * bytes)).

Lemma Add_all_ok l : ∀ w m,
  maps w !! cache c = Some m →
  Add_all c l w = Ok tt (set_maps <[cache c := foldl (add_one (clock w)) m l]> w).
Proof.
  induction l as [|kv l IH]; intros w m H; simpl.
  - unfold mret, M_ret, ret. by rewrite set_maps_id.
  - unfold mbind, M_bind, bind. rewrite (Add_ok _ _ _ _ _ H).
    rewrite (IH _ (<[kv.1 := mkCacheEntry (clock w) kv.2]> m))
      by apply maps_set_maps_eq.
    by rewrite set_maps_twice.
Qed.

Lemma add_all_other t l : ∀ m k,
  k ∉ l.*1 → foldl (add_one t) m l !! k = m !! k.
Proof.
  induction l as [|kv l IH]; intros m k Hk; simpl; [done|].
  rewrite fmap_cons in Hk. apply not_elem_of_cons in Hk as [Hne Hk].
  rewrite IH by done. unfold add_one. by rewrite lookup_insert_ne.
Qed.

Lemma add_all_dom t l : ∀ m,
  dom (foldl (add_one t) m l) = dom m ∪ list_to_set l.*1.
Proof.
  induction l as [|kv l IH]; intros m; simpl.
  - by rewrite (right_id_L ∅ (∪)).
  - rewrite IH. unfold add_one. rewrite dom_insert_L.
    by rewrite (comm_L (∪) {[kv.1]} (dom m)), <- (assoc_L (∪)).
Qed.
End adding_many.

(** X3. Adding the pairs of a list one after the other leaves one entry for
    each distinct key: [Len] is the number of distinct keys, old and new; for
    a key the list gives several values the last one is kept; keys the list
    does not mention are looked up as before. On an empty cache and a list
    without repeated keys [Len] is the length of the list. *)
Theorem Add_all_distinct_keys (c : Cache) (w : World)
    (m : gmap string CacheEntry) (l : list (string * bytes)) :
  maps w !! cache c = Some m →
  ∃ w',
    Add_all c l w = Ok tt w' ∧
    value_of (Len c w') =
      Some (Z.of_nat (size (dom m ∪ list_to_set l.*1 : gset string))) ∧
    (∀ l1 k v l2, l = l1 ++ (k, v) :: l2 → k ∉ l2.*1 →
       value_of (Get c k w') = Some (normalize v, true)) ∧
    (∀ k, k ∉ l.*1 → value_of (Get c k w') = value_of (Get c k w)) ∧
    (m = ∅ → NoDup l.*1 → value_of (Len c w') = Some (Z.of_nat (length l))).
Proof.
  intros H. eexists. split; [by apply Add_all_ok|].
  assert (maps (set_maps <[cache c := foldl (add_one (clock w)) m l]> w)
            !! cache c = Some (foldl (add_one (clock w)) m l)) as H'
    by apply maps_set_maps_eq.
  assert (size (foldl (add_one (clock w)) m l)
          = size (dom m ∪ list_to_set l.*1 : gset string)) as Hsize.
  { by rewrite <- (add_all_dom (clock w)), size_dom. }
  split; [|split; [|split]].
  - by rewrite (Len_value _ _ _ H'), Hsize.
  - intros l1 k v l2 -> Hk. rewrite (Get_value _ _ _ _ H').
    rewrite foldl_app. simpl. rewrite add_all_other by done.
    unfold add_one at 1. simpl. by rewrite lookup_insert_eq.
  - intros k Hk. rewrite (Get_value _ _ _ _ H'), (Get_value _ _ _ _ H).
    by rewrite add_all_other.
  - intros -> Hnd. rewrite (Len_value _ _ _ H'), Hsize. do 2 f_equal.
    rewrite dom_empty_L, (left_id_L ∅ (∪)).
    rewrite size_list_to_set by done. by rewrite length_fmap.
Qed.

Lemma Add_all_distinct_keys_witness :
  ∃ w',
    Add_all c5 [("pokemon1", pikachu); ("pokemon2", charizard);
                ("pokemon1", charizard)] w5 = Ok tt w' ∧
    value_of (Get c5 "pokemon1" w') = Some (normalize charizard, true) ∧
    value_of (Get c5 "pokemon3" w') = value_of (Get c5 "pokemon3" w5).
Proof.
  destruct (Add_all_distinct_keys c5 w5 ∅
              [("pokemon1", pikachu); ("pokemon2", charizard);
               ("pokemon1", charizard)] eq_refl)
    as (w' & Hadd & _ & Hlast & Hother & _).
  exists w'. split; [exact Hadd|]. split.
  - apply (Hlast [("pokemon1", pikachu); ("pokemon2", charizard)]
                 "pokemon1" charizard []); [reflexivity|].
    simpl. apply not_elem_of_nil.
  - apply Hother. simpl. rewrite !not_elem_of_cons.
    repeat split; try discriminate. apply not_elem_of_nil.
Defined.

Example Add_all_run :
  value_of ((Add_all c5 [("pokemon1", pikachu); ("pokemon2", charizard);
                          ("pokemon1", charizard)];;
             n ← Len c5; g ← Get c5 "pokemon1"; ret (n, g)) w5)
  = Some (2, (charizard, true)).
Proof. vm_compute. reflexivity. Qed.

Lemma survivors_lookup (c : Cache) (t : Time) (m : gmap string CacheEntry)
    (k : string) :
  survivors c t m !! k =
    match m !! k with
    | Some e => if decide (age t e ≤ interval c) then Some e else None
    | None => None
    end.
Proof.
  unfold survivors. destruct (m !! k) as [e|] eqn:Hk.
  - case_decide.
    + by apply map_lookup_filter_Some.
    + apply map_lookup_filter_None. right. intros e' He' HP. simpl in HP.
      rewrite Hk in He'. by injection He' as <-.
  - apply map_lookup_filter_None. by left.
Qed.

(** X4. An entry lives one interval: after [Add(k, v)], a wait of [d] and a
    sweep, [Get(k)] finds [v] when [d] is at most the interval and misses
    when [d] is longer, whatever was stored for [k] before (an overwrite
    starts the age of the entry anew). *)
Theorem entry_lives_one_interval (c : Cache) (w : World)
    (m : gmap string CacheEntry) (k : string) (v : bytes) (d : Duration) :
  maps w !! cache c = Some m →
  d ≤ maxDuration →
  value_of ((Add c k v;; Sleep d;; reapExpired c;; Get c k) w) =
    Some (if decide (Z.max 0 d ≤ interval c)
          then (normalize v, true) else (Some [], false)).
Proof.
  intros H Hd. unfold mbind, M_bind, bind at 1.
  rewrite (Add_ok _ _ _ _ _ H). unfold bind at 1, Sleep.
  set (m1 := <[k := mkCacheEntry (clock w) v]> m).
  set (w2 := set_clock (λ t, t + Z.max 0 d) (set_maps <[cache c := m1]> w)).
  assert (maps w2 !! cache c = Some m1) as H2 by apply lookup_insert_eq.
  unfold bind. rewrite (reapExpired_ok _ _ _ H2).
  erewrite Get_value; last apply maps_set_maps_eq.
  f_equal. rewrite survivors_lookup. unfold m1. rewrite lookup_insert_eq.
  unfold age. simpl. rewrite (Sub_elapsed _ _ Hd).
  by destruct (decide (Z.max 0 d ≤ interval c)).
Qed.

Lemma entry_lives_one_interval_witness :
  value_of ((Add c100ms "key1" charizard;; Sleep (120 * Millisecond);;
             reapExpired c100ms;; Get c100ms "key1") w_two_keys)
  = Some (Some [], false) ∧
  value_of ((Add c100ms "key1" charizard;; Sleep (100 * Millisecond);;
             reapExpired c100ms;; Get c100ms "key1") w_two_keys)
  = Some (charizard, true).
Proof.
  split.
  - rewrite (entry_lives_one_interval c100ms w_two_keys _ "key1" charizard
               (120 * Millisecond) eq_refl); [reflexivity|].
    unfold maxDuration, Millisecond. lia.
  - rewrite (entry_lives_one_interval c100ms w_two_keys _ "key1" charizard
               (100 * Millisecond) eq_refl); [reflexivity|].
    unfold maxDuration, Millisecond. lia.
Defined.

Lemma survivors_later (c : Cache) (t t' : Time) (m : gmap string CacheEntry) :
  t ≤ t' → survivors c t' (survivors c t m) = survivors c t' m.
Proof.
  intros Ht. apply map_eq. intros k. rewrite !survivors_lookup.
  destruct (m !! k) as [e|]; [|done].
  destruct (decide (age t e ≤ interval c)) as [Hle|Hgt].
  - done.
  - destruct (decide (age t' e ≤ interval c)) as [Hle'|]; [|done].
    exfalso. apply Hgt. unfold age in *.
    pose proof (Sub_mono t t' (CreatedAt e) Ht). lia.
Qed.

(** X5. A later sweep subsumes an earlier one: sweeping, waiting and sweeping
    again leaves the store that waiting and sweeping once leaves. *)
Theorem reapExpired_later_subsumes (c : Cache) (w : World) (d : Duration) :
  (reapExpired c;; Sleep d;; reapExpired c) w = (Sleep d;; reapExpired c) w.
Proof.
  destruct (maps w !! cache c) as [m|] eqn:H.
  - unfold mbind, M_bind, bind at 1. rewrite (reapExpired_ok _ _ _ H).
    unfold bind, Sleep.
    erewrite reapExpired_ok; last by (simpl; apply lookup_insert_eq).
    erewrite (reapExpired_ok c (set_clock _ w)); last by (simpl; exact H).
    simpl clock. rewrite survivors_later by lia.
    f_equal. destruct w as [ms cs t]. unfold set_maps, set_clock. simpl.
    f_equal. apply insert_insert_eq.
  - unfold mbind, M_bind, bind, Sleep.
    rewrite (reapExpired_unallocated _ _ H).
    by rewrite reapExpired_unallocated.
Qed.

Example reapExpired_later_run :
  (reapExpired c100ms;; Sleep (200 * Millisecond);; reapExpired c100ms) w_two_keys
  = Ok tt {| maps := {[0%nat := ∅]}; chans := {[0%nat := ChanOpen]};
             clock := 320 * Millisecond |}.
Proof. vm_compute. reflexivity. Qed.

(** X6. A sweep only shrinks the cache: the map it leaves is a part of the
    map it found, [Len] does not grow, the other maps, the channels and the
    clock are untouched, and the store is left exactly as it was if and only
    if no entry was older than the interval. *)
Theorem reapExpired_only_shrinks (c : Cache) (w : World)
    (m : gmap string CacheEntry) :
  maps w !! cache c = Some m →
  ∃ w' m',
    reapExpired c w = Ok tt w' ∧
    maps w' !! cache c = Some m' ∧
    m' ⊆ m ∧
    value_of (Len c w) = Some (Z.of_nat (size m)) ∧
    value_of (Len c w') = Some (Z.of_nat (size m')) ∧
    Z.of_nat (size m') ≤ Z.of_nat (size m) ∧
    (∀ r, r ≠ cache c → maps w' !! r = maps w !! r) ∧
    chans w' = chans w ∧ clock w' = clock w ∧
    (w' = w ↔ ∀ k e, m !! k = Some e → age (clock w) e ≤ interval c).
Proof.
  intros H.
  exists (set_maps <[cache c := survivors c (clock w) m]> w), (survivors c (clock w) m).
  assert (survivors c (clock w) m ⊆ m) as Hsub by apply map_filter_subseteq.
  assert (maps (set_maps <[cache c := survivors c (clock w) m]> w) !! cache c
          = Some (survivors c (clock w) m)) as H' by apply maps_set_maps_eq.
  split; [by apply reapExpired_ok|]. split; [exact H'|]. split; [exact Hsub|].
  split; [by apply Len_value|]. split; [by apply Len_value|].
  split; [apply Nat2Z.inj_le; by apply map_subseteq_size|].
  split; [intros r Hne; by apply maps_set_maps_ne|].
  split; [done|]. split; [done|]. split.
  - intros Heq k e Hk. rewrite Heq in H'. rewrite H in H'.
    injection H' as Hm. rewrite Hm in Hk. rewrite survivors_lookup in Hk.
    destruct (m !! k) as [e'|]; [|done].
    destruct (decide (age (clock w) e' ≤ interval c)); [|done].
    by injection Hk as <-.
  - intros Hall. apply set_maps_id. rewrite H. f_equal.
    apply map_eq. intros k. rewrite survivors_lookup.
    destruct (m !! k) as [e|] eqn:Hk; [|done].
    destruct (decide (age (clock w) e ≤ interval c)) as [|Hgt]; [done|].
    exfalso. by apply Hgt, (Hall k).
Qed.

Lemma reapExpired_only_shrinks_witness :
  ∃ w' m',
    reapExpired c100ms w_two_keys = Ok tt w' ∧
    maps w' !! cache c100ms = Some m' ∧
    m' ⊆ {["key1" := mkCacheEntry 0 pikachu;
           "key2" := mkCacheEntry (120 * Millisecond) charizard]} ∧
    value_of (Len c100ms w_two_keys) = Some 2.
Proof.
  destruct (reapExpired_only_shrinks c100ms w_two_keys _ eq_refl)
    as (w' & m' & Hsweep & Hm' & Hsub & Hlen & _).
  exists w', m'. split; [exact Hsweep|]. split; [exact Hm'|].
  split; [exact Hsub|]. rewrite Hlen. reflexivity.
Defined.

(** X7. A cache whose interval is not positive: the reaper goroutine panics
    in [time.NewTicker] as it starts; and a sweep of a cache whose interval
    is negative removes every entry made at or before the time of the
    sweep, so it leaves the cache empty. *)
Theorem non_positive_interval (c : Cache) (w : World)
    (m : gmap string CacheEntry) :
  maps w !! cache c = Some m →
  (interval c ≤ 0 →
     reapLoop_enter c w = Panic "non-positive interval for NewTicker") ∧
  (0 < interval c → reapLoop_enter c w = Ok AtSelect w) ∧
  (interval c < 0 →
   (∀ k e, m !! k = Some e → CreatedAt e ≤ clock w) →
   ∃ w', reapExpired c w = Ok tt w' ∧
         maps w' !! cache c = Some ∅ ∧
         value_of (Len c w') = Some 0).
Proof.
  intros H. split; [|split].
  - intros Hle. unfold reapLoop_enter, NewTicker, mbind, M_bind, bind.
    by destruct (Z.leb_spec (interval c) 0); [|lia].
  - intros Hlt. unfold reapLoop_enter, NewTicker, mbind, M_bind, bind.
    by destruct (Z.leb_spec (interval c) 0); [lia|].
  - intros Hneg Hpast.
    assert (survivors c (clock w) m = ∅) as Hempty.
    { apply map_eq. intros k. rewrite survivors_lookup, lookup_empty.
      destruct (m !! k) as [e|] eqn:Hk; [|done].
      destruct (decide (age (clock w) e ≤ interval c)) as [Hle|]; [|done].
      exfalso. specialize (Hpast k e Hk). unfold age in Hle.
      pose proof (Sub_mono (CreatedAt e) (clock w) (CreatedAt e) Hpast) as Hm.
      rewrite (Sub_exact (CreatedAt e) (CreatedAt e)) in Hm
        by (unfold minDuration, maxDuration; lia).
      lia. }
    eexists. split; [by apply reapExpired_ok|]. rewrite Hempty.
    split; [apply maps_set_maps_eq|].
    erewrite Len_value; last apply maps_set_maps_eq. done.
Qed.

Lemma non_positive_interval_witness :
  reapLoop_enter c_negative w_two_keys = Panic "non-positive interval for NewTicker" ∧
  ∃ w', reapExpired c_negative w_two_keys = Ok tt w' ∧
        maps w' !! cache c_negative = Some ∅ ∧
        value_of (Len c_negative w') = Some 0.
Proof.
  destruct (non_positive_interval c_negative w_two_keys _ eq_refl)
    as (Hpanic & _ & Hall).
  split.
  - apply Hpanic. simpl. lia.
  - apply Hall; [simpl; lia|].
    intros k e Hk. simpl clock.
    destruct (decide (k = "key1")) as [->|Hne1].
    + vm_compute in Hk. injection Hk as <-. simpl. unfold Millisecond. lia.
    + destruct (decide (k = "key2")) as [->|Hne2].
      * vm_compute in Hk. injection Hk as <-. simpl. unfold Millisecond. lia.
      * rewrite lookup_insert_ne in Hk by done.
        rewrite lookup_singleton_ne in Hk by done. discriminate.
Defined.

(** ** The command line *)

Example cleanInput_tests :
  cleanInput (txt "  hello  world  ") = [txt "hello"; txt "world"] ∧
  cleanInput (txt "Charmander Bulbasaur PIKACHU")
    = [txt "charmander"; txt "bulbasaur"; txt "pikachu"] ∧
  cleanInput (txt "hello world") = [txt "hello"; txt "world"] ∧
  cleanInput (txt "   ") = [] ∧
  cleanInput (txt "") = [] ∧
  cleanInput (txt "single") = [txt "single"] ∧
  cleanInput (txt "  MULTIPLE   SPACES   BETWEEN   WORDS  ")
    = [txt "multiple"; txt "spaces"; txt "between"; txt "words"] ∧
  cleanInput ("009"%char :: "010"%char :: txt "TabsAndNewlines" ++ ["009"%char; "010"%char])
    = [txt "tabsandnewlines"].
Proof. vm_compute. repeat split. Qed.

Section text.
Implicit Types (a b : ascii) (t r : list ascii).

(** Induction following the recursion of [replace_double_space]. *)
Lemma text_ind2 (P : list ascii → Prop) :
  P [] → (∀ a, P [a]) → (∀ a b r, P r → P (b :: r) → P (a :: b :: r)) →
  ∀ t, P t.
Proof.
  intros Hnil Hone Hstep t.
  assert (P t ∧ ∀ a, P (a :: t)) as [H _]; [|exact H].
  induction t as [|b r [IH1 IH2]]; [by split|].
  split; [apply IH2|]. intros a. by apply Hstep.
Qed.

Lemma is_space_char_eq a : is_space_char a = true ↔ a = space.
Proof. unfold is_space_char. apply Ascii.eqb_eq. Qed.

Lemma replace_starts t :
  starts_with_space (replace_double_space t) = starts_with_space t.
Proof.
  destruct t as [|a [|b r]]; simpl; [done..|].
  destruct (is_space_char a) eqn:Ha; simpl; [|done].
  destruct (is_space_char b); simpl; [done|exact Ha].
Qed.

Lemma replace_halves_pairs t :
  (2 * space_pairs (replace_double_space t) ≤ space_pairs t)%nat.
Proof.
  induction t as [|a|a b r IH1 IH2] using text_ind2; [simpl; lia..|].
  change (replace_double_space (a :: b :: r)) with
    (if is_space_char a && is_space_char b
     then space :: replace_double_space r
     else a :: replace_double_space (b :: r)).
  change (space_pairs (a :: b :: r)) with
    ((if is_space_char a && is_space_char b then 1 else 0) + space_pairs (b :: r))%nat.
  destruct (is_space_char a) eqn:Ha; destruct (is_space_char b) eqn:Hb; simpl andb; cbv iota.
  - (* two spaces become one *)
    pose proof (replace_starts r) as Hs.
    destruct (replace_double_space r) as [|x r'] eqn:Hr.
    + simpl. lia.
    + change (space_pairs (space :: x :: r')) with
        ((if is_space_char space && is_space_char x then 1 else 0)
         + space_pairs (x :: r'))%nat.
      simpl in Hs. destruct r as [|y r0]; [done|].
      simpl in Hs. rewrite Hs.
      change (space_pairs (b :: y :: r0)) with
        ((if is_space_char b && is_space_char y then 1 else 0)
         + space_pairs (y :: r0))%nat.
      rewrite Hb. change (is_space_char space) with true. cbn [andb].
      destruct (is_space_char y); lia.
  - pose proof (replace_starts (b :: r)) as Hs.
    destruct (replace_double_space (b :: r)) as [|x r'] eqn:Hr; [simpl; lia|].
    change (space_pairs (a :: x :: r')) with
      ((if is_space_char a && is_space_char x then 1 else 0)
       + space_pairs (x :: r'))%nat.
    simpl in Hs. rewrite Hs, Hb, andb_false_r. cbn [andb]. lia.
  - pose proof (replace_starts (b :: r)) as Hs.
    destruct (replace_double_space (b :: r)) as [|x r'] eqn:Hr; [simpl; lia|].
    change (space_pairs (a :: x :: r')) with
      ((if is_space_char a && is_space_char x then 1 else 0)
       + space_pairs (x :: r'))%nat.
    rewrite Ha. cbn [andb]. lia.
  - pose proof (replace_starts (b :: r)) as Hs.
    destruct (replace_double_space (b :: r)) as [|x r'] eqn:Hr; [simpl; lia|].
    change (space_pairs (a :: x :: r')) with
      ((if is_space_char a && is_space_char x then 1 else 0)
       + space_pairs (x :: r'))%nat.
    rewrite Ha. cbn [andb]. lia.
Qed.

Lemma contains_iff_pairs t :
  contains_double_space t = false ↔ space_pairs t = 0%nat.
Proof.
  induction t as [|a r IH]; [done|].
  destruct r as [|b r']; [done|].
  change (contains_double_space (a :: b :: r')) with
    ((is_space_char a && is_space_char b) || contains_double_space (b :: r')).
  change (space_pairs (a :: b :: r')) with
    ((if is_space_char a && is_space_char b then 1 else 0) + space_pairs (b :: r'))%nat.
  destruct (is_space_char a && is_space_char b); simpl.
  - split; [done|lia].
  - exact IH.
Qed.

Lemma replace_nothing t :
  contains_double_space t = false → replace_double_space t = t.
Proof.
  induction t as [|a r IH]; [done|].
  destruct r as [|b r']; [done|].
  change (contains_double_space (a :: b :: r')) with
    ((is_space_char a && is_space_char b) || contains_double_space (b :: r')).
  change (replace_double_space (a :: b :: r')) with
    (if is_space_char a && is_space_char b
     then space :: replace_double_space r'
     else a :: replace_double_space (b :: r')).
  destruct (is_space_char a && is_space_char b); cbn [orb]; [done|].
  intros H. by rewrite IH.
Qed.
End text.

Section trimming.
Implicit Types (a b : ascii) (t r : list ascii).

Lemma replace_nil t : replace_double_space t = [] → t = [].
Proof.
  destruct t as [|a [|b r]]; simpl; [done..|].
  by destruct (is_space_char a && is_space_char b).
Qed.

Lemma replace_ends t :
  ends_with_space (replace_double_space t) = ends_with_space t.
Proof.
  induction t as [|a|a b r IH1 IH2] using text_ind2; [done..|].
  change (replace_double_space (a :: b :: r)) with
    (if is_space_char a && is_space_char b
     then space :: replace_double_space r
     else a :: replace_double_space (b :: r)).
  change (ends_with_space (a :: b :: r)) with (ends_with_space (b :: r)).
  destruct (is_space_char a && is_space_char b) eqn:Hab.
  - apply andb_true_iff in Hab as [_ Hb].
    destruct r as [|y r0]; [simpl; by rewrite Hb|].
    change (ends_with_space (b :: y :: r0)) with (ends_with_space (y :: r0)).
    rewrite <- IH1.
    destruct (replace_double_space (y :: r0)) as [|x r'] eqn:Hr; [|done].
    by apply replace_nil in Hr.
  - rewrite <- IH2.
    destruct (replace_double_space (b :: r)) as [|x r'] eqn:Hr; [|done].
    by apply replace_nil in Hr.
Qed.

Lemma replace_keeps_other t :
  filter (λ a, a ≠ space) (replace_double_space t) = filter (λ a, a ≠ space) t.
Proof.
  induction t as [|a|a b r IH1 IH2] using text_ind2; [done..|].
  change (replace_double_space (a :: b :: r)) with
    (if is_space_char a && is_space_char b
     then space :: replace_double_space r
     else a :: replace_double_space (b :: r)).
  destruct (is_space_char a && is_space_char b) eqn:Hab.
  - apply andb_true_iff in Hab as [Ha Hb].
    apply is_space_char_eq in Ha as ->. apply is_space_char_eq in Hb as ->.
    rewrite !filter_cons_False by (intros H; by apply H). exact IH1.
  - rewrite !(filter_cons _ a). by rewrite IH2.
Qed.

Lemma replace_length t : (length (replace_double_space t) ≤ length t)%nat.
Proof.
  induction t as [|a|a b r IH1 IH2] using text_ind2; [done..|].
  change (replace_double_space (a :: b :: r)) with
    (if is_space_char a && is_space_char b
     then space :: replace_double_space r
     else a :: replace_double_space (b :: r)).
  destruct (is_space_char a && is_space_char b); simpl length in *; lia.
Qed.

(** What every pass keeps, the loop keeps. *)
Lemma trim_loop_keeps {A} (f : list ascii → A) :
  (∀ t, f (replace_double_space t) = f t) →
  ∀ fuel stop t, f (trim_loop fuel stop t) = f t.
Proof.
  intros Hf fuel. induction fuel as [|fuel IH]; intros stop t; simpl; [done|].
  destruct (contains_double_space t); [|done].
  destruct (100 <? stop); [apply Hf|]. by rewrite IH.
Qed.

Lemma trim_loop_length fuel : ∀ stop t,
  (length (trim_loop fuel stop t) ≤ length t)%nat.
Proof.
  induction fuel as [|fuel IH]; intros stop t; simpl; [done|].
  destruct (contains_double_space t); [|done].
  pose proof (replace_length t).
  destruct (100 <? stop); [done|]. specialize (IH (stop + 1) (replace_double_space t)). lia.
Qed.

Lemma trim_loop_nothing fuel stop t :
  contains_double_space t = false → trim_loop fuel stop t = t.
Proof. intros H. destruct fuel; simpl; [done|]. by rewrite H. Qed.

Lemma trim_loop_nil fuel : ∀ stop t, trim_loop fuel stop t = [] ↔ t = [].
Proof.
  induction fuel as [|fuel IH]; intros stop t; simpl; [done|].
  destruct (contains_double_space t) eqn:Hc; [|done].
  assert (replace_double_space t = [] ↔ t = []) as Hr.
  { split; [apply replace_nil | by intros ->]. }
  destruct (100 <? stop); [exact Hr|]. by rewrite IH.
Qed.

(** The passes the loop still makes when its counter is at [stop] halve the
    number of double spaces each. *)
Lemma trim_loop_no_pairs fuel : ∀ stop t,
  0 ≤ stop →
  Z.of_nat fuel + stop = 102 →
  Z.of_nat (space_pairs t) < 2 ^ Z.of_nat fuel →
  contains_double_space (trim_loop fuel stop t) = false.
Proof.
  induction fuel as [|fuel IH]; intros stop t Hstop Hsum Hpairs.
  - simpl in *. apply contains_iff_pairs. lia.
  - simpl. destruct (contains_double_space t) eqn:Hc; [|exact Hc].
    pose proof (replace_halves_pairs t) as Hhalf.
    assert (Z.of_nat (space_pairs (replace_double_space t)) < 2 ^ Z.of_nat fuel) as Hlt.
    { rewrite Nat2Z.inj_succ, Z.pow_succ_r in Hpairs by lia. lia. }
    destruct (Z.ltb_spec 100 stop).
    + assert (fuel = 0%nat) as -> by lia.
      apply contains_iff_pairs. simpl in Hlt. lia.
    + apply IH; [lia..|exact Hlt].
Qed.

(** More fuel than the 102 passes changes nothing. *)
Lemma trim_loop_fuel f1 : ∀ f2 stop t,
  0 ≤ stop ≤ 101 →
  102 - stop ≤ Z.of_nat f1 → 102 - stop ≤ Z.of_nat f2 →
  trim_loop f1 stop t = trim_loop f2 stop t.
Proof.
  induction f1 as [|f1 IH]; intros f2 stop t Hstop H1 H2; [lia|].
  destruct f2 as [|f2]; [lia|]. simpl.
  destruct (contains_double_space t); [|done].
  destruct (Z.ltb_spec 100 stop); [done|].
  apply IH; lia.
Qed.
End trimming.

Lemma space_pairs_le_length (t : list ascii) : (space_pairs t ≤ length t)%nat.
Proof.
  induction t as [|a r IH]; [done|].
  destruct r as [|b r']; [simpl; lia|].
  change (space_pairs (a :: b :: r')) with
    ((if is_space_char a && is_space_char b then 1 else 0) + space_pairs (b :: r'))%nat.
  simpl length in *. destruct (is_space_char a && is_space_char b); lia.
Qed.

(** X8. [trimMultipleSpaces] leaves no two spaces next to each other, for
    every text shorter than 2^102 bytes: each of its at most 102 passes
    halves the number of double spaces. The 102 passes of the model are all
    the loop can make: more fuel gives the same text. *)
Theorem trimMultipleSpaces_single_spaces (t : list ascii) :
  Z.of_nat (length t) < 2 ^ 102 →
  contains_double_space (trimMultipleSpaces t) = false ∧
  space_pairs (trimMultipleSpaces t) = 0%nat ∧
  (∀ fuel, (102 ≤ fuel)%nat → trim_loop fuel 0 t = trimMultipleSpaces t).
Proof.
  intros Hlen.
  assert (contains_double_space (trimMultipleSpaces t) = false) as H.
  { apply trim_loop_no_pairs; [lia|done|].
    pose proof (space_pairs_le_length t). lia. }
  split; [exact H|]. split; [by apply contains_iff_pairs|].
  intros fuel Hfuel. apply trim_loop_fuel; lia.
Qed.

Lemma trimMultipleSpaces_single_spaces_witness :
  trimMultipleSpaces (txt "multiple   spaces    between  words")
    = txt "multiple spaces between words" ∧
  contains_double_space
    (trimMultipleSpaces (txt "multiple   spaces    between  words")) = false.
Proof.
  split; [reflexivity|].
  apply (trimMultipleSpaces_single_spaces (txt "multiple   spaces    between  words")).
  reflexivity.
Defined.

Lemma trimMultipleSpaces_only_spaces_aux (t : list ascii) :
  starts_with_space (trimMultipleSpaces t) = starts_with_space t ∧
  ends_with_space (trimMultipleSpaces t) = ends_with_space t ∧
  (trimMultipleSpaces t = [] ↔ t = []).
Proof.
  unfold trimMultipleSpaces.
  split; [apply (trim_loop_keeps starts_with_space), replace_starts|].
  split; [apply (trim_loop_keeps ends_with_space), replace_ends|].
  apply trim_loop_nil.
Qed.

(** X9. [trimMultipleSpaces] removes spaces and nothing else, and it does not
    trim: the characters other than the space are kept, in their order; a
    text that begins (ends) with a space still begins (ends) with one; the
    text does not get longer; a text without two spaces in a row is returned
    as it is. *)
Theorem trimMultipleSpaces_only_spaces (t : list ascii) :
  filter (λ a, a ≠ space) (trimMultipleSpaces t) = filter (λ a, a ≠ space) t ∧
  starts_with_space (trimMultipleSpaces t) = starts_with_space t ∧
  ends_with_space (trimMultipleSpaces t) = ends_with_space t ∧
  (length (trimMultipleSpaces t) ≤ length t)%nat ∧
  (trimMultipleSpaces t = [] ↔ t = []) ∧
  (contains_double_space t = false → trimMultipleSpaces t = t).
Proof.
  unfold trimMultipleSpaces.
  split; [apply (trim_loop_keeps (filter (λ a, a ≠ space))), replace_keeps_other|].
  split; [apply (trim_loop_keeps starts_with_space), replace_starts|].
  split; [apply (trim_loop_keeps ends_with_space), replace_ends|].
  split; [apply trim_loop_length|].
  split; [|apply trim_loop_nothing].
  apply trim_loop_nil.
Qed.

Lemma trimMultipleSpaces_only_spaces_witness :
  trimMultipleSpaces (txt "  a   b ") = txt " a b " ∧
  starts_with_space (trimMultipleSpaces (txt "  a   b ")) = true ∧
  trimMultipleSpaces (txt " a b ") = txt " a b ".
Proof.
  destruct (trimMultipleSpaces_only_spaces (txt "  a   b "))
    as (_ & Hstart & _).
  destruct (trimMultipleSpaces_only_spaces (txt " a b "))
    as (_ & _ & _ & _ & _ & Hsame).
  split; [reflexivity|]. split.
  - rewrite Hstart. reflexivity.
  - apply Hsame. reflexivity.
Defined.

Section cleaning.
Implicit Types (a b : ascii) (t r : list ascii).

Lemma lower_char_space a : is_space_char (lower_char a) = is_space_char a.
Proof. by destruct a as [[] [] [] [] [] [] [] []]. Qed.

Lemma lower_char_white a : is_white (lower_char a) = is_white a.
Proof. by destruct a as [[] [] [] [] [] [] [] []]. Qed.

Lemma lower_char_not_upper a : is_upper (lower_char a) = false.
Proof. by destruct a as [[] [] [] [] [] [] [] []]. Qed.

Lemma lower_char_other a : is_upper a = false → lower_char a = a.
Proof. by destruct a as [[] [] [] [] [] [] [] []]. Qed.

Lemma space_is_white a : is_space_char a = true → is_white a = true.
Proof. intros ->%is_space_char_eq. reflexivity. Qed.

(** [trim_left] cuts a run of white space off the front. *)
Lemma trim_left_split t :
  ∃ p, t = p ++ trim_left t ∧ Forall (λ a, is_white a = true) p.
Proof.
  induction t as [|a r (p & Hp & Hall)]; [by exists []|]. simpl.
  destruct (is_white a) eqn:Ha.
  - exists (a :: p). split; [simpl; by rewrite <- Hp|by constructor].
  - by exists [].
Qed.

Lemma trim_left_head t :
  match trim_left t with
  | a :: _ => is_white a = false
  | [] => True
  end.
Proof.
  induction t as [|a r IH]; [done|]. simpl.
  by destruct (is_white a) eqn:Ha.
Qed.

Lemma trim_left_nil t :
  trim_left t = [] ↔ Forall (λ a, is_white a = true) t.
Proof.
  induction t as [|a r IH]; [done|]. simpl.
  destruct (is_white a) eqn:Ha.
  - rewrite IH. split; [by constructor | by inversion 1].
  - split; [done|]. inversion 1; congruence.
Qed.

Lemma ends_with_space_snoc t a : ends_with_space (t ++ [a]) = is_space_char a.
Proof.
  induction t as [|b r IH]; [done|].
  destruct r as [|b' r']; [done|]. exact IH.
Qed.

Lemma starts_with_space_app t r :
  t ≠ [] → starts_with_space (t ++ r) = starts_with_space t.
Proof. by destruct t. Qed.

Lemma trim_left_all_white t :
  Forall (λ a, is_white a = true) (trim_left t) → trim_left t = [].
Proof.
  intros H. pose proof (trim_left_head t) as Hh.
  destruct (trim_left t) as [|a r]; [done|].
  inversion H; subst. congruence.
Qed.

Lemma TrimSpace_nil t :
  TrimSpace t = [] ↔ Forall (λ a, is_white a = true) t.
Proof.
  unfold TrimSpace. rewrite <- trim_left_nil.
  split.
  - intros H. apply (f_equal (@rev ascii)) in H. rewrite rev_involutive in H.
    change (rev []) with (@nil ascii) in H.
    apply trim_left_nil in H. apply List.Forall_rev in H.
    rewrite rev_involutive in H. by apply trim_left_all_white.
  - by intros ->.
Qed.

Lemma TrimSpace_ends t : ends_with_space (TrimSpace t) = false.
Proof.
  unfold TrimSpace. pose proof (trim_left_head (rev (trim_left t))) as H.
  destruct (trim_left (rev (trim_left t))) as [|a v]; [done|].
  simpl rev. rewrite ends_with_space_snoc.
  destruct (is_space_char a) eqn:Ha; [|done].
  apply space_is_white in Ha. congruence.
Qed.

Lemma TrimSpace_starts t : starts_with_space (TrimSpace t) = false.
Proof.
  unfold TrimSpace.
  destruct (trim_left_split (rev (trim_left t))) as (p & Hp & _).
  pose proof (trim_left_head t) as Hhead.
  set (v := trim_left (rev (trim_left t))) in *.
  apply (f_equal (@rev ascii)) in Hp. rewrite rev_involutive, rev_app_distr in Hp.
  destruct (rev v) as [|a v'] eqn:Hv; [done|].
  rewrite Hp in Hhead. simpl in *.
  destruct (is_space_char a) eqn:Ha; [|done].
  apply space_is_white in Ha. congruence.
Qed.

Lemma TrimSpace_length t : (length (TrimSpace t) ≤ length t)%nat.
Proof.
  unfold TrimSpace. rewrite length_rev.
  assert (∀ s, (length (trim_left s) ≤ length s)%nat) as Hle.
  { intros s. destruct (trim_left_split s) as (p & Hp & _).
    rewrite Hp at 2. rewrite length_app. lia. }
  pose proof (Hle (rev (trim_left t))) as H1. rewrite length_rev in H1.
  pose proof (Hle t). lia.
Qed.

Lemma Split_not_nil t : Split t ≠ [].
Proof.
  destruct t as [|a r]; [done|]. simpl.
  destruct (is_space_char a); [done|]. by destruct (Split r).
Qed.

Lemma Split_no_space t :
  Forall (Forall (λ a, a ≠ space)) (Split t).
Proof.
  induction t as [|a r IH]; [by repeat constructor|]. simpl.
  destruct (is_space_char a) eqn:Ha; [by constructor|].
  assert (a ≠ space) as Hne.
  { intros Heq. apply is_space_char_eq in Heq. congruence. }
  destruct (Split r) as [|p ps]; [by repeat constructor|].
  inversion IH; subst. constructor; [by constructor|done].
Qed.

Lemma Split_concat t : concat (Split t) = filter (λ a, a ≠ space) t.
Proof.
  induction t as [|a r IH]; [done|]. simpl Split.
  destruct (is_space_char a) eqn:Ha.
  - apply is_space_char_eq in Ha as ->.
    rewrite filter_cons_False by (intros H; by apply H). exact IH.
  - rewrite filter_cons_True.
    + rewrite <- IH. destruct (Split r) as [|p ps] eqn:Hs; [|done].
      by apply Split_not_nil in Hs.
    + intros Heq. apply is_space_char_eq in Heq. congruence.
Qed.

(** In a text with no two spaces in a row and no space at its end, only the
    first piece can be empty, and it is when the text is empty or starts
    with a space. *)
Lemma Split_pieces t :
  contains_double_space t = false → ends_with_space t = false →
  match Split t with
  | [] => False
  | p :: ps =>
      Forall (λ q, q ≠ []) ps ∧
      (t ≠ [] → starts_with_space t = false → p ≠ [])
  end.
Proof.
  induction t as [|a r IH]; intros Hc He; [by split|].
  assert (contains_double_space r = false ∧ ends_with_space r = false ∧
          (is_space_char a = true → r ≠ [] ∧ starts_with_space r = false))
    as (Hc' & He' & Hsp).
  { destruct r as [|b r']; [by repeat split; [..|intros Ha; simpl in He; congruence]|].
    change (contains_double_space (a :: b :: r')) with
      ((is_space_char a && is_space_char b) || contains_double_space (b :: r')) in Hc.
    apply orb_false_iff in Hc as [Hab Hc].
    repeat split; [done..|]. simpl.
    apply andb_false_iff in Hab as [|]; congruence. }
  specialize (IH Hc' He'). simpl Split.
  destruct (Split r) as [|p ps]; [done|]. destruct IH as [Hps Hp].
  destruct (is_space_char a) eqn:Ha.
  - destruct (Hsp eq_refl) as [Hr Hs].
    split; [constructor; [by apply Hp|done]|]. simpl. congruence.
  - by split.
Qed.
End cleaning.

Section cleanInput_facts.
Implicit Types (a : ascii) (t : list ascii).

(** The text [cleanInput] splits. *)
Lemma cleanInput_unfold t :
  let u := trimMultipleSpaces (TrimSpace (ToLower t)) in
  cleanInput t = if text_eqb u [] || text_eqb u [space] then [] else Split u.
Proof. reflexivity. Qed.

Lemma ToLower_white t :
  Forall (λ a, is_white a = true) (ToLower t) ↔ Forall (λ a, is_white a = true) t.
Proof.
  unfold ToLower. rewrite Forall_fmap. apply Forall_iff. intros a. simpl.
  by rewrite lower_char_white.
Qed.

Lemma ToLower_no_upper t : Forall (λ a, is_upper a = false) (ToLower t).
Proof.
  unfold ToLower. apply Forall_fmap, Forall_true. intros a.
  apply lower_char_not_upper.
Qed.

Lemma trim_left_Forall (P : ascii → Prop) t : Forall P t → Forall P (trim_left t).
Proof.
  intros H. destruct (trim_left_split t) as (p & Hp & _).
  rewrite Hp in H. by apply Forall_app in H as [_ ?].
Qed.

Lemma TrimSpace_Forall (P : ascii → Prop) t : Forall P t → Forall P (TrimSpace t).
Proof.
  intros H. unfold TrimSpace.
  apply Forall_rev, trim_left_Forall, Forall_rev, trim_left_Forall, H.
Qed.

(** Every character of a text that holds it after the passes held it
    before: the passes insert spaces only where there were spaces. *)
Lemma replace_Forall (P : ascii → Prop) t :
  Forall P t → Forall P (replace_double_space t).
Proof.
  induction t as [|a|a b r IH1 IH2] using text_ind2; [done..|].
  intros H.
  change (replace_double_space (a :: b :: r)) with
    (if is_space_char a && is_space_char b
     then space :: replace_double_space r
     else a :: replace_double_space (b :: r)).
  inversion H as [|? ? Ha Hbr]; subst. inversion Hbr as [|? ? Hb Hr]; subst.
  destruct (is_space_char a && is_space_char b) eqn:Hab.
  - apply andb_true_iff in Hab as [Hsp _]. apply is_space_char_eq in Hsp as ->.
    constructor; [done|by apply IH1].
  - constructor; [done|by apply IH2].
Qed.

Lemma trim_loop_Forall (P : ascii → Prop) fuel : ∀ stop t,
  Forall P t → Forall P (trim_loop fuel stop t).
Proof.
  induction fuel as [|fuel IH]; intros stop t H; simpl; [done|].
  destruct (contains_double_space t); [|done].
  destruct (100 <? stop); [by apply replace_Forall|].
  by apply IH, replace_Forall.
Qed.

Lemma Forall_concat_pieces (P : ascii → Prop) t :
  Forall P t → Forall (Forall P) (Split t).
Proof.
  induction t as [|a r IH]; intros H; [by repeat constructor|].
  inversion H as [|? ? Ha Hr]; subst. specialize (IH Hr). simpl.
  destruct (is_space_char a); [by constructor|].
  destruct (Split r) as [|p ps]; [by repeat constructor|].
  inversion IH; subst. constructor; [by constructor|done].
Qed.

(** What [cleanInput] splits has no space at either end. *)
Lemma cleaned_text_ends t :
  let u := trimMultipleSpaces (TrimSpace (ToLower t)) in
  starts_with_space u = false ∧ ends_with_space u = false ∧
  u ≠ [space] ∧
  (u = [] ↔ Forall (λ a, is_white a = true) t).
Proof.
  intros u.
  destruct (trimMultipleSpaces_only_spaces_aux (TrimSpace (ToLower t)))
    as (Hs & He & Hnil).
  fold u in Hs, He, Hnil.
  rewrite TrimSpace_starts in Hs. rewrite TrimSpace_ends in He.
  split; [exact Hs|]. split; [exact He|]. split.
  - intros Hu. by rewrite Hu in Hs.
  - by rewrite Hnil, TrimSpace_nil, ToLower_white.
Qed.
End cleanInput_facts.

Section cleanInput_props.
Implicit Types (a : ascii) (t : list ascii).

Lemma trim_left_ToLower t : trim_left (ToLower t) = ToLower (trim_left t).
Proof.
  induction t as [|a r IH]; [done|]. simpl.
  rewrite lower_char_white. by destruct (is_white a).
Qed.

Lemma TrimSpace_ToLower t : TrimSpace (ToLower t) = ToLower (TrimSpace t).
Proof.
  unfold TrimSpace. rewrite trim_left_ToLower.
  unfold ToLower at 1. rewrite <- map_rev. fold (ToLower (rev (trim_left t))).
  rewrite trim_left_ToLower. unfold ToLower. by rewrite map_rev.
Qed.

Lemma filter_ToLower t :
  filter (λ a, a ≠ space) (ToLower t) = ToLower (filter (λ a, a ≠ space) t).
Proof.
  induction t as [|a r IH]; [done|]. simpl.
  destruct (is_space_char a) eqn:Ha.
  - apply is_space_char_eq in Ha as ->.
    change (lower_char space) with space.
    rewrite !filter_cons_False by (intros H; by apply H). exact IH.
  - assert (a ≠ space) as Hne.
    { intros Heq. apply is_space_char_eq in Heq. congruence. }
    assert (lower_char a ≠ space) as Hne'.
    { intros Heq. apply is_space_char_eq in Heq.
      rewrite lower_char_space in Heq. congruence. }
    rewrite !filter_cons_True by done. simpl. by rewrite IH.
Qed.
End cleanInput_props.

(** X10. The words [cleanInput] returns for an ASCII input (shorter than
    2^102 bytes): none is empty, none holds a space and none holds an
    upper-case letter. *)
Theorem cleanInput_words (t : list ascii) :
  is_ascii t →
  Z.of_nat (length t) < 2 ^ 102 →
  Forall (λ word, word ≠ [] ∧
                  Forall (λ a, a ≠ space) word ∧
                  Forall (λ a, is_upper a = false) word) (cleanInput t).
Proof.
  intros _ Hlen. rewrite cleanInput_unfold. cbv zeta.
  set (u := trimMultipleSpaces (TrimSpace (ToLower t))).
  destruct (cleaned_text_ends t) as (Hs & He & _ & _). fold u in Hs, He.
  destruct (text_eqb u [] || text_eqb u [space]) eqn:Htest; [constructor|].
  apply orb_false_iff in Htest as [Hnil _].
  apply bool_decide_eq_false_1 in Hnil.
  assert (contains_double_space u = false) as Hc.
  { apply trim_loop_no_pairs; [lia|done|].
    pose proof (space_pairs_le_length (TrimSpace (ToLower t))).
    pose proof (TrimSpace_length (ToLower t)) as Hl.
    unfold ToLower in Hl at 2. rewrite length_map in Hl. lia. }
  assert (Forall (λ a, is_upper a = false) u) as Hup.
  { apply trim_loop_Forall, TrimSpace_Forall, ToLower_no_upper. }
  pose proof (Split_pieces u Hc He) as Hp.
  pose proof (Split_no_space u) as Hns.
  pose proof (Forall_concat_pieces _ u Hup) as Hu.
  destruct (Split u) as [|p ps]; [done|]. destruct Hp as [Hps Hp].
  inversion Hns; subst. inversion Hu; subst.
  constructor; [by repeat split; [apply Hp|..]|].
  apply Forall_and. split; [done|]. by apply Forall_and.
Qed.

Lemma cleanInput_words_witness :
  cleanInput (txt "  Explore   Pallet-Town ") = [txt "explore"; txt "pallet-town"] ∧
  Forall (λ word, word ≠ [] ∧
                  Forall (λ a, a ≠ space) word ∧
                  Forall (λ a, is_upper a = false) word)
         (cleanInput (txt "  Explore   Pallet-Town ")).
Proof.
  split; [reflexivity|].
  apply (cleanInput_words (txt "  Explore   Pallet-Town ")).
  - unfold is_ascii. simpl. repeat constructor; simpl; lia.
  - reflexivity.
Defined.

(** X11. [cleanInput] returns no word exactly for the ASCII inputs made of
    white space only (the empty input among them); the text it compares with
    [" "] is never [" "]. *)
Theorem cleanInput_blank (t : list ascii) :
  is_ascii t →
  (cleanInput t = [] ↔ Forall (λ a, is_white a = true) t) ∧
  trimMultipleSpaces (TrimSpace (ToLower t)) ≠ [space].
Proof.
  intros _. destruct (cleaned_text_ends t) as (_ & _ & Hne & Hnil).
  split; [|exact Hne].
  rewrite cleanInput_unfold. cbv zeta.
  set (u := trimMultipleSpaces (TrimSpace (ToLower t))) in *.
  rewrite <- Hnil.
  destruct (text_eqb u []) eqn:H1.
  - apply bool_decide_eq_true_1 in H1. by split.
  - apply bool_decide_eq_false_1 in H1.
    assert (text_eqb u [space] = false) as -> by by apply bool_decide_eq_false_2.
    simpl. split; [intros H; by apply Split_not_nil in H | done].
Qed.

Lemma cleanInput_blank_witness :
  cleanInput (["009"%char; " "%char; "010"%char; " "%char]) = [] ∧
  cleanInput (txt " x ") ≠ [].
Proof.
  assert (is_ascii ["009"%char; " "%char; "010"%char; " "%char]) as Hb.
  { unfold is_ascii. repeat constructor; simpl; lia. }
  assert (is_ascii (txt " x ")) as Hx.
  { unfold is_ascii. simpl. repeat constructor; simpl; lia. }
  destruct (cleanInput_blank _ Hb) as [Hiff _].
  destruct (cleanInput_blank _ Hx) as [Hiff' _].
  split.
  - apply Hiff. repeat constructor.
  - intros H. apply Hiff' in H. inversion H as [|? ? _ H']. subst.
    inversion H' as [|? ? Hx' _]. discriminate Hx'.
Defined.

(** X12. [cleanInput] loses nothing but spaces and case: the words it
    returns for an ASCII input, put together, are the input with the white
    space at its ends trimmed and its spaces taken out, in lower case. *)
Theorem cleanInput_content (t : list ascii) :
  is_ascii t →
  concat (cleanInput t) = ToLower (filter (λ a, a ≠ space) (TrimSpace t)).
Proof.
  intros _. rewrite <- filter_ToLower, <- TrimSpace_ToLower.
  rewrite cleanInput_unfold. cbv zeta.
  set (u := trimMultipleSpaces (TrimSpace (ToLower t))).
  assert (filter (λ a, a ≠ space) u
          = filter (λ a, a ≠ space) (TrimSpace (ToLower t))) as Hf.
  { apply (trim_loop_keeps (filter (λ a, a ≠ space))), replace_keeps_other. }
  rewrite <- Hf.
  destruct (text_eqb u []) eqn:H1.
  - apply bool_decide_eq_true_1 in H1. by rewrite H1.
  - destruct (text_eqb u [space]) eqn:H2.
    + apply bool_decide_eq_true_1 in H2. by rewrite H2.
    + simpl. apply Split_concat.
Qed.

Lemma cleanInput_content_witness :
  concat (cleanInput (txt "  Explore   Pallet-Town ")) = txt "explorepallet-town".
Proof.
  rewrite (cleanInput_content (txt "  Explore   Pallet-Town ")).
  - reflexivity.
  - unfold is_ascii. simpl. repeat constructor; simpl; lia.
Defined.

(** ** Requests through the cache *)

(** X13. A cache hit: when the URL is in the cache, [makeRequest] returns the
    stored bytes and a nil error without asking the network (every network
    gives the same result) and leaves the store as it is: the entry keeps
    the timestamp of the request that fetched it. *)
Theorem makeRequest_hit (c : Cache) (w : World) (m : gmap string CacheEntry)
    (url : string) (e : CacheEntry) (net : string → http_answer) :
  maps w !! cache c = Some m →
  m !! url = Some e →
  makeRequest net url c w = Ok (normalize (Val e), None) w.
Proof.
  intros H He. unfold makeRequest, mbind, M_bind, bind.
  rewrite (Get_ok _ _ _ _ H), He. reflexivity.
Qed.

Lemma makeRequest_hit_witness :
  makeRequest unreachable_net "pokemon1" c5 w5_old = Ok (pikachu, None) w5_old.
Proof.
  apply (makeRequest_hit c5 w5_old {["pokemon1" := mkCacheEntry 0 pikachu]}
           "pokemon1" (mkCacheEntry 0 pikachu) unreachable_net); reflexivity.
Defined.

Lemma makeRequest_miss (c : Cache) (w : World) (m : gmap string CacheEntry)
    (url : string) (net : string → http_answer) :
  maps w !! cache c = Some m →
  m !! url = None →
  makeRequest net url c w =
    match net url with
    | GetFailed err => Ok (None, Some (ErrMakingRequest err)) w
    | Response code body =>
        if code =? StatusOK then
          match body with
          | ReadFailed err => Ok (None, Some (ErrReadingBody err)) w
          | ReadOk b =>
              Ok (Some b, None)
                 (set_maps <[cache c := <[url := mkCacheEntry (clock w) (Some b)]> m]> w)
          end
        else Ok (None, Some (ErrBadStatus code)) w
    end.
Proof.
  intros H Hu. unfold makeRequest, mbind, M_bind, bind.
  rewrite (Get_ok _ _ _ _ H), Hu. simpl.
  destruct (net url) as [err|code [b|err]]; [done|..];
    destruct (code =? StatusOK); simpl; try done.
  by rewrite (Add_ok _ _ _ _ _ H).
Qed.


(** X14. A miss answered with status 200 and a readable body: [makeRequest]
    returns the body, stores it under the URL with the time of the call, and
    from then on (until a sweep removes the entry) a request for the same
    URL returns that body without asking the network, however long one
    waits. *)
Theorem makeRequest_memoizes (c : Cache) (w : World)
    (m : gmap string CacheEntry) (url : string) (net : string → http_answer)
    (b : list Byte.byte) :
  maps w !! cache c = Some m →
  m !! url = None →
  net url = Response StatusOK (ReadOk b) →
  ∃ w',
    makeRequest net url c w = Ok (Some b, None) w' ∧
    maps w' !! cache c = Some (<[url := mkCacheEntry (clock w) (Some b)]> m) ∧
    (∀ net' d, (Sleep d;; makeRequest net' url c) w' =
               Ok (Some b, None) (set_clock (λ t, t + Z.max 0 d) w')).
Proof.
  intros H Hu Hnet. eexists. split; [|split].
  - rewrite (makeRequest_miss _ _ _ _ _ H Hu), Hnet. reflexivity.
  - apply maps_set_maps_eq.
  - intros net' d. unfold mbind, M_bind, bind, Sleep.
    rewrite (makeRequest_hit c _ (<[url := mkCacheEntry (clock w) (Some b)]> m)
               url (mkCacheEntry (clock w) (Some b)) net').
    + reflexivity.
    + simpl. apply lookup_insert_eq.
    + apply lookup_insert_eq.
Qed.

Lemma makeRequest_memoizes_witness :
  ∃ w',
    makeRequest (λ _, Response 200 (ReadOk (String.list_byte_of_string "pikachu")))
      "pokemon1" c5 w5 = Ok (pikachu, None) w' ∧
    (Sleep Second;; makeRequest unreachable_net "pokemon1" c5) w' =
      Ok (pikachu, None) (set_clock (λ t, t + Z.max 0 Second) w').
Proof.
  destruct (makeRequest_memoizes c5 w5 ∅ "pokemon1"
              (λ _, Response 200 (ReadOk (String.list_byte_of_string "pikachu")))
              (String.list_byte_of_string "pikachu") eq_refl eq_refl eq_refl)
    as (w' & Hreq & _ & Hagain).
  exists w'. split; [exact Hreq|]. apply Hagain.
Defined.

(** X15. [makeRequest] returns data or an error, never both and never
    neither: with a nil error the data is not the nil slice; with an error
    the data is nil, nothing is put in the cache (the store is as before),
    and the error tells which step failed. A failure is therefore not
    remembered: the next request asks the network again. *)
Theorem makeRequest_data_or_error (c : Cache) (w : World)
    (m : gmap string CacheEntry) (url : string) (net : string → http_answer) :
  maps w !! cache c = Some m →
  ∃ data err w',
    makeRequest net url c w = Ok (data, err) w' ∧
    (err = None → data ≠ None) ∧
    (∀ e, err = Some e →
       data = None ∧ w' = w ∧ m !! url = None ∧
       (∀ net', makeRequest net' url c w' = makeRequest net' url c w) ∧
       match e with
       | ErrMakingRequest msg => net url = GetFailed msg
       | ErrBadStatus code => ∃ body, net url = Response code body ∧ code ≠ StatusOK
       | ErrReadingBody msg => net url = Response StatusOK (ReadFailed msg)
       end).
Proof.
  intros H. destruct (m !! url) as [e|] eqn:Hu.
  - exists (normalize (Val e)), None, w.
    split; [by apply makeRequest_hit with m|].
    split; [intros _; apply normalize_not_nil|done].
  - rewrite (makeRequest_miss _ _ _ _ _ H Hu).
    destruct (net url) as [msg|code [b|msg]] eqn:Hnet.
    + eexists _, _, _. split; [reflexivity|]. split; [done|].
      intros e [= <-]. done.
    + destruct (Z.eqb_spec code StatusOK) as [->|Hne].
      * eexists _, _, _. split; [reflexivity|]. split; done.
      * eexists _, _, _. split; [reflexivity|]. split; [done|].
        intros e [= <-]. repeat split; eauto.
    + destruct (Z.eqb_spec code StatusOK) as [->|Hne].
      * eexists _, _, _. split; [reflexivity|]. split; [done|].
        intros e [= <-]. done.
      * eexists _, _, _. split; [reflexivity|]. split; [done|].
        intros e [= <-]. repeat split; eauto.
Qed.

Lemma makeRequest_data_or_error_witness :
  makeRequest (λ _, Response 404 (ReadOk [])) "pokemon1" c5 w5
    = Ok (None, Some (ErrBadStatus 404)) w5 ∧
  ∃ data err w',
    makeRequest (λ _, Response 404 (ReadOk [])) "pokemon1" c5 w5 = Ok (data, err) w' ∧
    (err = None → data ≠ None).
Proof.
  split; [reflexivity|].
  destruct (makeRequest_data_or_error c5 w5 ∅ "pokemon1"
              (λ _, Response 404 (ReadOk [])) eq_refl)
    as (data & err & w' & Hreq & Hdata & _).
  exists data, err, w'. split; [exact Hreq | exact Hdata].
Defined.

(** X16. A fetched answer is served for one interval: after a request that
    fetched the body [b], a wait of [d] and a sweep, the next request
    returns [b] without the network when [d] is at most the interval, and
    passes on what the network then answers when [d] is longer. *)
Theorem makeRequest_refetches_after_expiry (c : Cache) (w : World)
    (m : gmap string CacheEntry) (url : string) (net net' : string → http_answer)
    (b : list Byte.byte) (d : Duration) :
  maps w !! cache c = Some m →
  m !! url = None →
  net url = Response StatusOK (ReadOk b) →
  d ≤ maxDuration →
  value_of ((makeRequest net url c;; Sleep d;; reapExpired c;;
             makeRequest net' url c) w) =
    if decide (Z.max 0 d ≤ interval c) then Some (Some b, None)
    else
      Some match net' url with
           | GetFailed err => (None, Some (ErrMakingRequest err))
           | Response code body =>
               if code =? StatusOK then
                 match body with
                 | ReadFailed err => (None, Some (ErrReadingBody err))
                 | ReadOk b' => (Some b', None)
                 end
               else (None, Some (ErrBadStatus code))
           end.
Proof.
  intros H Hu Hnet Hd. unfold mbind, M_bind, bind at 1.
  rewrite (makeRequest_miss _ _ _ _ _ H Hu), Hnet. simpl Z.eqb. cbv iota.
  unfold bind at 1, Sleep.
  set (m1 := <[url := mkCacheEntry (clock w) (Some b)]> m).
  set (w2 := set_clock (λ t, t + Z.max 0 d) (set_maps <[cache c := m1]> w)).
  assert (maps w2 !! cache c = Some m1) as H2 by apply lookup_insert_eq.
  unfold bind. rewrite (reapExpired_ok _ _ _ H2).
  set (w3 := set_maps <[cache c := survivors c (clock w2) m1]> w2).
  assert (maps w3 !! cache c = Some (survivors c (clock w2) m1)) as H3
    by apply maps_set_maps_eq.
  assert (survivors c (clock w2) m1 !! url =
          if decide (Z.max 0 d ≤ interval c)
          then Some (mkCacheEntry (clock w) (Some b)) else None) as Hs.
  { rewrite survivors_lookup. unfold m1. rewrite lookup_insert_eq.
    unfold age. simpl. by rewrite (Sub_elapsed _ _ Hd). }
  destruct (decide (Z.max 0 d ≤ interval c)).
  - by rewrite (makeRequest_hit _ _ _ _ _ net' H3 Hs).
  - rewrite (makeRequest_miss _ _ _ _ net' H3 Hs).
    destruct (net' url) as [err|code [b'|err]]; [done|..];
      by destruct (code =? StatusOK).
Qed.

Lemma makeRequest_refetches_after_expiry_witness :
  value_of ((makeRequest (λ _, Response 200 (ReadOk (String.list_byte_of_string "pikachu")))
               "pokemon1" c5;;
             Sleep (6 * Second);; reapExpired c5;;
             makeRequest (λ _, Response 200 (ReadOk (String.list_byte_of_string "charizard")))
               "pokemon1" c5) w5)
  = Some (charizard, None).
Proof.
  rewrite (makeRequest_refetches_after_expiry c5 w5 ∅ "pokemon1"
             (λ _, Response 200 (ReadOk (String.list_byte_of_string "pikachu")))
             (λ _, Response 200 (ReadOk (String.list_byte_of_string "charizard")))
             (String.list_byte_of_string "pikachu") (6 * Second)
             eq_refl eq_refl eq_refl).
  - reflexivity.
  - unfold maxDuration, Second. lia.
Defined.

(** ** Commands *)


(** X17. The chance of a catch is between 1 and 90 percent for every base
    experience, at most 50 when the base experience is not negative and 1
    from a base experience of 98 on; it does not grow with the base
    experience. So a roll of 1 always catches and a roll above 90 never
    does. On 64-bit integers the computation does not overflow. *)
Theorem catchChance_bounds (be : Z) :
  1 ≤ catchChance be ≤ 90 ∧
  (0 ≤ be → catchChance be ≤ 50) ∧
  (98 ≤ be → catchChance be = 1) ∧
  (∀ be', be ≤ be' → catchChance be' ≤ catchChance be) ∧
  caught 1 be = true ∧
  (∀ roll, 90 < roll → caught roll be = false) ∧
  (- 2 ^ 63 ≤ be < 2 ^ 63 → - 2 ^ 63 ≤ 50 - be ÷ 2 < 2 ^ 63).
Proof.
  assert (∀ x, 1 ≤ catchChance x ≤ 90) as Hb.
  { intros x. unfold catchChance.
    destruct (Z.ltb_spec (50 - x ÷ 2) 1); [simpl; lia|].
    destruct (Z.ltb_spec 90 (50 - x ÷ 2)); lia. }
  assert (∀ x y, x ≤ y → catchChance y ≤ catchChance x) as Hmono.
  { intros x y Hxy. pose proof (Z.quot_le_mono x y 2 ltac:(lia) Hxy).
    unfold catchChance.
    destruct (Z.ltb_spec (50 - x ÷ 2) 1); destruct (Z.ltb_spec (50 - y ÷ 2) 1);
      repeat match goal with |- context [?a <? ?b] => destruct (Z.ltb_spec a b) end;
      lia. }
  split; [apply Hb|]. split; [|split; [|split; [|split; [|split]]]].
  - intros Hbe. pose proof (Hmono 0 be Hbe) as H0.
    change (catchChance 0) with 50 in H0. exact H0.
  - intros Hbe. pose proof (Hmono 98 be Hbe) as H98.
    change (catchChance 98) with 1 in H98. pose proof (Hb be). lia.
  - intros be'. apply Hmono.
  - unfold caught. apply Z.leb_le. apply Hb.
  - intros roll Hroll. unfold caught. apply Z.leb_gt. pose proof (Hb be). lia.
  - intros Hrange.
    pose proof (Z.quot_le_mono be (2 ^ 63) 2 ltac:(lia) ltac:(lia)) as Hhi.
    pose proof (Z.quot_le_mono (- 2 ^ 63) be 2 ltac:(lia) ltac:(lia)) as Hlo.
    change (2 ^ 63 ÷ 2) with (2 ^ 62) in Hhi.
    change (- 2 ^ 63 ÷ 2) with (- 2 ^ 62) in Hlo.
    change (2 ^ 63) with 9223372036854775808.
    change (2 ^ 62) with 4611686018427387904 in *. lia.
Qed.

Lemma catchChance_bounds_witness :
  catchChance 112 = 1 ∧ catchChance 64 = 18 ∧ catchChance 0 = 50 ∧
  catchChance 112 ≤ catchChance 64 ∧ caught 91 0 = false.
Proof.
  destruct (catchChance_bounds 64) as (_ & _ & _ & Hmono & _ & Hroll & _).
  split; [reflexivity|]. split; [reflexivity|]. split; [reflexivity|].
  split; [apply Hmono; lia|].
  destruct (catchChance_bounds 0) as (_ & _ & _ & _ & _ & Hroll0 & _).
  apply Hroll0. lia.
Defined.

Section listing.
Variable Unmarshal_areas : bytes → LocationAreasResponse + string.
Implicit Types (cfg : config) (w : World) (m : gmap string CacheEntry).

(** What [show_page] does when the URL is in the cache. *)
Lemma show_page_hit net url cfg w m e :
  maps w !! cache (cfg_cache cfg) = Some m →
  m !! url = Some e →
  show_page Unmarshal_areas net url cfg w =
    match Unmarshal_areas (normalize (Val e)) with
    | inr msg => Ok (cfg, [], Some (ErrUnmarshal msg)) w
    | inl resp =>
        Ok ({| nextURL := Next resp; previousURL := Previous resp;
               cfg_cache := cfg_cache cfg; pokedex := pokedex cfg |},
            Blank :: map (λ r, AreaName r.1) (Results resp) ++ [Blank],
            None) w
    end.
Proof.
  intros H He. unfold show_page, mbind, M_bind, bind.
  rewrite (makeRequest_hit _ _ _ _ _ net H He).
  by destruct (Unmarshal_areas (normalize (Val e))).
Qed.

End listing.



Example commandMap_run :
  value_of (commandMap sample_Unmarshal_areas net_areas cfg5 w5) =
    Some ({| nextURL := Some "https://pokeapi.co/api/v2/location-area?offset=20";
             previousURL := None; cfg_cache := c5; pokedex := ∅ |},
          [Blank; AreaName "canalave-city-area"; AreaName "eterna-city-area"; Blank],
          None).
Proof. vm_compute. reflexivity. Qed.

(** X19. A body that does not decode is cached all the same: once
    [commandMap] has returned the decoding error, the same command returns
    it again whatever the network would answer now and however long one
    waits, until a sweep removes the entry. *)
Theorem undecodable_page_is_cached
    (Unmarshal_areas : bytes → LocationAreasResponse + string)
    (net : string → http_answer) (cfg cfg' : config) (w w' : World)
    (m : gmap string CacheEntry) (out : list line) (msg : string) :
  maps w !! cache (cfg_cache cfg) = Some m →
  commandMap Unmarshal_areas net cfg w = Ok (cfg', out, Some (ErrUnmarshal msg)) w' →
  cfg' = cfg ∧ out = [] ∧
  ∀ net' d,
    (Sleep d;; commandMap Unmarshal_areas net' cfg') w' =
      Ok (cfg, [], Some (ErrUnmarshal msg)) (set_clock (λ t, t + Z.max 0 d) w').
Proof.
  intros H. unfold commandMap.
  set (url := match nextURL cfg with Some next => next | None => first_page end).
  intros Hrun.
  assert (cfg' = cfg ∧ out = [] ∧
          ∃ m' e, maps w' !! cache (cfg_cache cfg) = Some m' ∧ m' !! url = Some e ∧
                  Unmarshal_areas (normalize (Val e)) = inr msg)
    as (-> & -> & m' & e & H' & He & Hd).
  { destruct (m !! url) as [e|] eqn:Hu.
    - rewrite (show_page_hit _ _ _ _ _ _ _ H Hu) in Hrun.
      destruct (Unmarshal_areas (normalize (Val e))) as [resp|msg'] eqn:Hd;
        [done|]. injection Hrun as <- <- <- <-.
      split; [done|]. split; [done|]. by exists m, e.
    - unfold show_page, mbind, M_bind, bind in Hrun.
      rewrite (makeRequest_miss _ _ _ _ _ H Hu) in Hrun.
      destruct (net url) as [err|code [b|err]]; [done|..];
        destruct (code =? StatusOK); try done.
      destruct (Unmarshal_areas (Some b)) as [resp|msg'] eqn:Hd; [done|].
      injection Hrun as <- <- <- <-.
      split; [done|]. split; [done|].
      exists (<[url := mkCacheEntry (clock w) (Some b)]> m),
        (mkCacheEntry (clock w) (Some b)).
      split; [apply maps_set_maps_eq|]. split; [apply lookup_insert_eq|done]. }
  split; [done|]. split; [done|].
  intros net' d. unfold mbind, M_bind, bind, Sleep. fold url.
  rewrite (show_page_hit _ net' url cfg _ m' e); [by rewrite Hd|exact H'|exact He].
Qed.

Lemma undecodable_page_is_cached_witness :
  commandMap sample_Unmarshal_areas net_html cfg5 w5
    = Ok (cfg5, [], Some (ErrUnmarshal "invalid character"))
         (set_maps <[cache c5 := {[first_page := mkCacheEntry 0
                       (Some (String.list_byte_of_string "<html>"))]}]> w5) ∧
  (Sleep Second;; commandMap sample_Unmarshal_areas net_areas cfg5)
    (set_maps <[cache c5 := {[first_page := mkCacheEntry 0
                  (Some (String.list_byte_of_string "<html>"))]}]> w5)
    = Ok (cfg5, [], Some (ErrUnmarshal "invalid character"))
         (set_clock (λ t, t + Z.max 0 Second)
            (set_maps <[cache c5 := {[first_page := mkCacheEntry 0
                          (Some (String.list_byte_of_string "<html>"))]}]> w5)).
Proof.
  assert (commandMap sample_Unmarshal_areas net_html cfg5 w5
          = Ok (cfg5, [], Some (ErrUnmarshal "invalid character"))
               (set_maps <[cache c5 := {[first_page := mkCacheEntry 0
                             (Some (String.list_byte_of_string "<html>"))]}]> w5))
    as Hrun by (vm_compute; reflexivity).
  split; [exact Hrun|].
  destruct (undecodable_page_is_cached sample_Unmarshal_areas net_html cfg5 cfg5
              w5 _ ∅ [] "invalid character" eq_refl Hrun) as (_ & _ & Hagain).
  apply Hagain.
Defined.



Example commandCatch_run :
  value_of (commandCatch sample_Unmarshal_pokemon net_pikachu 1 cfg5 [["pikachu"]] w5)
  = Some ({| nextURL := None; previousURL := None; cfg_cache := c5;
             pokedex := {["pikachu" := {| Name := "pikachu"; BaseExperience := 112 |}]} |},
          [Throwing "pikachu"; Congratulations "pikachu"], None) ∧
  value_of (commandCatch sample_Unmarshal_pokemon net_pikachu 2 cfg5 [["pikachu"]] w5)
  = Some (cfg5, [Throwing "pikachu"; Escaped "pikachu"], None).
Proof. split; vm_compute; reflexivity. Qed.
